(** * Stop-and-wait and sliding-window ARQ over UDP (udp.cpp)

    A shallow embedding of the five functions of [udp.cpp]:
    [clientStopWait], [serverReliable], [clientSlidingWindow], [ackAdvance]
    and [serverEarlyRetrans].  C [int] values are integers with 32-bit
    two's-complement wrap-around, [%] is the truncating remainder of C++,
    arrays are lists with an explicit fault on an access outside them, and
    the socket and the clock are an environment that the functions observe
    one observation at a time. *)

From Stdlib Require Import ZArith Lia Bool List.
From stdpp Require Import base list.
Import ListNotations.

Local Open Scope Z_scope.

(** ** C integers *)

Module Int.

Definition min_int : Z := -2147483648.
Definition max_int : Z := 2147483647.

Definition in_range (z : Z) : Prop := min_int <= z <= max_int.

(** Reduction to the 32-bit two's-complement representative. *)
Definition wrap (z : Z) : Z := (z + 2147483648) mod 4294967296 - 2147483648.

Definition add (a b : Z) : Z := wrap (a + b).
Definition sub (a b : Z) : Z := wrap (a - b).
Definition mul (a b : Z) : Z := wrap (a * b).

(** [a % b]: the sign of the result follows the dividend. *)
Definition rem (a b : Z) : Z := Z.rem a b.

(** A C++ [bool] converted to [int]. *)
Definition of_bool (b : bool) : Z := if b then 1 else 0.

(** An [int] used as a condition. *)
Definition truth (z : Z) : bool := negb (z =? 0).

Definition ne (a b : Z) : Z := of_bool (negb (a =? b)).
Definition band (a b : Z) : Z := Z.land a b.
Definition bxor (a b : Z) : Z := Z.lxor a b.

End Int.

(** ** The environment: clock and socket *)

(** What the program sees when it looks at its environment: the clock
    reading and, when the socket has one, the first [int] of the datagram at
    the head of the receive queue ([pollRecvFrom() > 0] exactly when there is
    one; [recvFrom] then reads it). *)
Record obs : Type := { now : Z; dgram : option Z }.

Definition MAX_TIME : Z := 1500.

(** Modelled from the spec: [Timer.h] is not among the sources.  The spec
    gives the timer two operations, [start] (reset the reference point to
    now) and [lap] (time elapsed since the last start). *)
Module Timer.

Record t : Type := { started : Z }.

Definition start (clock : Z) : t := {| started := clock |}.
Definition lap (tm : t) (clock : Z) : Z := clock - started tm.

End Timer.

(** Accesses outside an array, and loops that would not end, stop the
    embedded program with a fault. *)
Inductive fault : Type :=
  | OutOfBounds (index : Z) (size : nat)
  | Uninitialised (index : Z)
  | Diverges.

Inductive result (A : Type) : Type :=
  | Ok (a : A)
  | Fault (f : fault).

Arguments Ok {A} a.
Arguments Fault {A} f.

#[global] Instance result_bind : MBind result :=
  fun A B (k : A -> result B) (r : result A) =>
    match r with
    | Ok a => k a
    | Fault f => Fault f
    end.

(** [arr[i]] for an [int] index. *)
Definition index {A : Type} (arr : list A) (i : Z) : result A :=
  match (if 0 <=? i then arr !! Z.to_nat i else None) with
  | Some a => Ok a
  | None => Fault (OutOfBounds i (length arr))
  end.

(** [arr[i] = a] for an [int] index. *)
Definition assign {A : Type} (arr : list A) (i : Z) (a : A) : result (list A) :=
  if (0 <=? i) && (i <? Z.of_nat (length arr))
  then Ok (<[Z.to_nat i := a]> arr)
  else Fault (OutOfBounds i (length arr)).

(** ** Stop-and-wait: [clientStopWait] and [serverReliable] *)

Module StopWait.

(** Where [clientStopWait] is between two observations of its
    environment: about to run the body of the [do] loop (send, start the
    timer), inside the polling [while] loop, or returned. *)
Inductive pc : Type := AtSend | AtPoll | AtReturn.

Record client : Type := {
  msgNum : Z;           (* loop index of the [for] loop *)
  message0 : Z;         (* message[0] *)
  seqNum : Z;           (* the last acknowledgment read *)
  retrans : Z;          (* retransmission counter *)
  timeout : Timer.t;
  at_pc : pc;
  sent : list Z         (* message[0] of every sendTo, newest first *)
}.

Definition client_init : client :=
  {| msgNum := 0; message0 := 0; seqNum := 1; retrans := 0;
     timeout := Timer.start 0; at_pc := AtSend; sent := [] |}.

(** The head of the [for] loop: test [msgNum < max] and, inside the body,
    [message[0] = msgNum & 1]. *)
Definition for_head (max : Z) (st : client) : client :=
  if msgNum st <? max
  then {| msgNum := msgNum st; message0 := Int.band (msgNum st) 1;
          seqNum := seqNum st; retrans := retrans st;
          timeout := timeout st; at_pc := AtSend; sent := sent st |}
  else {| msgNum := msgNum st; message0 := message0 st;
          seqNum := seqNum st; retrans := retrans st;
          timeout := timeout st; at_pc := AtReturn; sent := sent st |}.

(** One observation of the environment and the code run on it. *)
Definition client_step (max : Z) (o : obs) (st : client) : client :=
  match at_pc st with
  | AtReturn => st
  | AtSend =>
      (* sock.sendTo(message); timeout.start(); *)
      {| msgNum := msgNum st; message0 := message0 st;
         seqNum := seqNum st; retrans := retrans st;
         timeout := Timer.start (now o); at_pc := AtPoll;
         sent := message0 st :: sent st |}
  | AtPoll =>
      match dgram o with
      | None =>
          (* pollRecvFrom() < 1 *)
          if MAX_TIME <? Timer.lap (timeout st) (now o)
          then {| msgNum := msgNum st; message0 := message0 st;
                  seqNum := seqNum st; retrans := Int.add (retrans st) 1;
                  timeout := Timer.start (now o); at_pc := AtPoll;
                  sent := message0 st :: sent st |}
          else st
      | Some ack =>
          (* recvFrom(&seqNum); retrans += seqNum ^ message[0]; *)
          let r := Int.add (retrans st) (Int.bxor ack (message0 st)) in
          if negb (ack =? message0 st)
          then {| msgNum := msgNum st; message0 := message0 st;
                  seqNum := ack; retrans := r;
                  timeout := timeout st; at_pc := AtSend; sent := sent st |}
          else for_head max
                 {| msgNum := Int.add (msgNum st) 1;
                    message0 := message0 st;
                    seqNum := ack; retrans := r;
                    timeout := timeout st; at_pc := AtSend;
                    sent := sent st |}
      end
  end.

(** The state of [clientStopWait(sock, max, message)] after the
    observations of [script]. *)
Definition clientStopWait (max : Z) (script : list obs) : client :=
  fold_left (fun st o => client_step max o st) script (for_head max client_init).

(** The value returned, once the function has returned. *)
Definition returned (st : client) : option Z :=
  match at_pc st with
  | AtReturn => Some (retrans st)
  | _ => None
  end.

(** What holds of the client between two observations: while it has not
    returned, [msgNum] is a message index below [max] and [message[0]] is
    its low bit. *)
Definition client_inv (max : Z) (st : client) : Prop :=
  0 <= msgNum st /\
  (at_pc st <> AtReturn -> msgNum st < max /\ message0 st = msgNum st mod 2).

(** 1 while a frame has been sent and the function polls for its
    acknowledgment, 0 otherwise. *)
Definition in_flight (st : client) : Z :=
  match at_pc st with
  | AtPoll => 1
  | _ => 0
  end.

(** The retransmission counter is the number of [sendTo] calls beyond one
    per message started, and on return every message has been started. *)
Definition accounted (max : Z) (st : client) : Prop :=
  retrans st = Int.wrap (Z.of_nat (length (sent st)) - msgNum st - in_flight st) /\
  (at_pc st = AtReturn -> msgNum st = Z.max 0 max).

(** An observation that shows no datagram or an acknowledgment that is a
    bit. *)
Definition bit_ack (o : obs) : Prop :=
  dgram o = None \/ dgram o = Some 0 \/ dgram o = Some 1.

(** The observations of a run without loss or delay, for [n] messages from
    message index [k] on: the clock at the [sendTo], then the acknowledgment
    of the frame just sent at the first poll. *)
Fixpoint lossless (n : nat) (k : Z) : list obs :=
  match n with
  | O => []
  | S n' =>
      {| now := 0; dgram := None |}
      :: {| now := 0; dgram := Some (k mod 2) |}
      :: lossless n' (k + 1)
  end.

(** The bits of the messages [k], [k + 1], ... ([n] of them). *)
Fixpoint bits (n : nat) (k : Z) : list Z :=
  match n with
  | O => []
  | S n' => k mod 2 :: bits n' (k + 1)
  end.

(** The client at the head of its [for] loop with [k] messages delivered,
    no retransmission counted and the frames [s] sent. *)
Definition at_message (max k : Z) (s : list Z) (st : client) : Prop :=
  msgNum st = k /\ retrans st = 0 /\ sent st = s /\
  at_pc st = (if k <? max then AtSend else AtReturn) /\
  (k < max -> message0 st = k mod 2).

(** The server. *)
Record server : Type := {
  msgToAck : Z;         (* loop index of the [for] loop *)
  acked : list Z        (* the value of every ackTo, newest first *)
}.

Definition server_init : server := {| msgToAck := 0; acked := [] |}.

(** The condition of the [do ... while]: [message[0] != msgToAck & 1].
    [!=] binds tighter than [&], so this is [(message[0] != msgToAck) & 1]. *)
Definition again (message0 msgToAck : Z) : bool :=
  Int.truth (Int.band (Int.ne message0 msgToAck) 1).

(** One pass through the body of the [do] loop on a received frame whose
    first [int] is [frame], and the [++msgToAck] that follows when the loop
    is left. *)
Definition server_recv (frame : Z) (st : server) : server :=
  if again frame (msgToAck st)
  then {| msgToAck := msgToAck st; acked := frame :: acked st |}
  else {| msgToAck := Int.add (msgToAck st) 1; acked := frame :: acked st |}.

(** The state of [serverReliable(sock, max, message)] after the frames of
    [frames] have arrived; it receives only while [msgToAck < max]. *)
Definition serverReliable (max : Z) (frames : list Z) : server :=
  fold_left
    (fun st frame => if msgToAck st <? max then server_recv frame st else st)
    frames server_init.

End StopWait.

(** ** Sliding window: [ackAdvance], [clientSlidingWindow] and
    [serverEarlyRetrans] *)

(** [ackAdvance(sock, lastSeqRec, windowSize)], on what the socket holds:
    [None] when [pollRecvFrom()] finds nothing, [Some recAckNum] when
    [recvFrom] reads the acknowledgment [recAckNum]. *)
Definition ackAdvance (sock : option Z) (lastSeqRec windowSize : Z) : Z :=
  let seqRange := Int.add (Int.mul windowSize 2) 1 in
  match sock with
  | Some recAckNum =>
      if Int.rem (Int.add (Int.sub recAckNum (Int.add lastSeqRec 1)) seqRange)
                 seqRange <? windowSize
      then Int.rem (Int.add (Int.sub recAckNum lastSeqRec) seqRange) seqRange
      else 0
  | None => 0
  end.

(** Window sizes for which no expression of the sliding-window functions
    that involves only the window size and ring positions leaves the range
    of [int]. *)
Definition small_window (windowSize : Z) : Prop :=
  0 < windowSize /\ 4 * windowSize + 2 <= Int.max_int.

Module WindowClient.

(** The first argument of a [sendTo]: [(char* )message], the caller's frame
    (recorded with its first [int]), or [(char* )v] for an [int] value [v],
    that is, the value [v] itself taken as the address of the bytes to
    send. *)
Inductive sendbuf : Type :=
  | Message (seq : Z)
  | Address (v : Z).

(** Where [clientSlidingWindow] is between two observations: at the
    [timeout.start()] that opens the body of the [for] loop, at the test of
    the [while] loop, or returned. *)
Inductive pc : Type := AtStart | AtWhile | AtReturn.

Record client : Type := {
  retrans : Z;
  lastAckRec : Z;
  lastFrameSent : Z;
  timeout : Timer.t;
  buffer : list (option Z);   (* [None]: a cell never written *)
  message : list Z;
  msgNum : Z;
  at_pc : pc;
  sent : list sendbuf         (* every sendTo, newest first *)
}.

(** [buffer[i]] read as a value. *)
Definition read (buf : list (option Z)) (i : Z) : result Z :=
  cell ← index buf i;
  match cell with
  | Some v => Ok v
  | None => Fault (Uninitialised i)
  end.

(** The number of frames the retransmission loop runs over:
    [(lastFrameSent - lastAckRec + windowSize + 1) % (windowSize + 1)]. *)
Definition outstanding (windowSize : Z) (st : client) : Z :=
  Int.rem
    (Int.add (Int.add (Int.sub (lastFrameSent st) (lastAckRec st)) windowSize) 1)
    (Int.add windowSize 1).

(** The condition of the [while] loop. *)
Definition full (windowSize : Z) (st : client) : bool :=
  lastAckRec st =? Int.rem (Int.add (lastFrameSent st) 1) (Int.add windowSize 1).

(** [k] more rounds of the retransmission loop, from loop index [i]:
    [sock.sendTo((char* )buffer[((lastAckRec + i) % (windowSize + 1)) * max],
    sizeof(message)); ++retrans;]. *)
Fixpoint resend (k : nat) (i max windowSize : Z) (st : client) : result client :=
  match k with
  | O => Ok st
  | S k' =>
      v ← read (buffer st)
            (Int.mul (Int.rem (Int.add (lastAckRec st) i) (Int.add windowSize 1)) max);
      resend k' (Int.add i 1) max windowSize
        {| retrans := Int.add (retrans st) 1; lastAckRec := lastAckRec st;
           lastFrameSent := lastFrameSent st; timeout := timeout st;
           buffer := buffer st; message := message st; msgNum := msgNum st;
           at_pc := at_pc st; sent := Address v :: sent st |}
  end.

(** [k] more rounds of the copy loop, from loop index [i]:
    [buffer[lastFrameSent * max + i] = message[i];]. *)
Fixpoint copy (k : nat) (i base : Z) (msg : list Z) (buf : list (option Z))
  : result (list (option Z)) :=
  match k with
  | O => Ok buf
  | S k' =>
      m ← index msg i;
      buf' ← assign buf (Int.add base i) (Some m);
      copy k' (Int.add i 1) base msg buf'
  end.

(** The head of the [for] loop. *)
Definition for_head (max : Z) (st : client) : client :=
  {| retrans := retrans st; lastAckRec := lastAckRec st;
     lastFrameSent := lastFrameSent st; timeout := timeout st;
     buffer := buffer st; message := message st; msgNum := msgNum st;
     at_pc := if msgNum st <? max then AtStart else AtReturn;
     sent := sent st |}.

(** The state on entry: [buffer] is an array of [(windowSize + 1) * max]
    cells, none written yet. *)
Definition client_init (max windowSize : Z) (message : list Z) : client :=
  for_head max
    {| retrans := 0; lastAckRec := 0; lastFrameSent := 0;
       timeout := Timer.start 0;
       buffer := replicate (Z.to_nat (Int.mul (Int.add windowSize 1) max)) None;
       message := message; msgNum := 0; at_pc := AtStart; sent := [] |}.

(** The body of the [while] loop, when the window is full. *)
Definition wait (max windowSize : Z) (o : obs) (st : client) : result client :=
  st1 ← (if MAX_TIME <? Timer.lap (timeout st) (now o)
         then st' ← resend (Z.to_nat (outstanding windowSize st)) 1 max windowSize st;
              Ok {| retrans := retrans st'; lastAckRec := lastAckRec st';
                    lastFrameSent := lastFrameSent st';
                    timeout := Timer.start (now o);
                    buffer := buffer st'; message := message st';
                    msgNum := msgNum st'; at_pc := at_pc st';
                    sent := sent st' |}
         else Ok st);
  (* lastAckRec = (lastAckRec + ackAdvance(sock, buffer[(lastAckRec + 1)
                    * max], windowSize)) % (windowSize + 1); *)
  lastSeqRec ← read (buffer st1) (Int.mul (Int.add (lastAckRec st1) 1) max);
  Ok {| retrans := retrans st1;
        lastAckRec :=
          Int.rem (Int.add (lastAckRec st1)
                           (ackAdvance (dgram o) lastSeqRec windowSize))
                  (Int.add windowSize 1);
        lastFrameSent := lastFrameSent st1; timeout := timeout st1;
        buffer := buffer st1; message := message st1; msgNum := msgNum st1;
        at_pc := AtWhile; sent := sent st1 |}.

(** The code after the [while] loop: send the next message, store it,
    try to advance, and go round the [for] loop.  [words] is
    [sizeof(message) / sizeof(int)], the number of [int]s a pointer takes. *)
Definition send (words : nat) (max windowSize : Z) (o : obs) (st : client)
  : result client :=
  let seqRange := Int.add (Int.mul windowSize 2) 1 in
  msg ← assign (message st) 0 (Int.rem (msgNum st) seqRange);
  let lfs := Int.rem (Int.add (lastFrameSent st) 1) (Int.add windowSize 1) in
  buf ← copy words 0 (Int.mul lfs max) msg (buffer st);
  lastSeqRec ← read buf
    (Int.mul (Int.rem (Int.add (lastAckRec st) 1) (Int.add windowSize 1)) max);
  Ok (for_head max
        {| retrans := retrans st;
           lastAckRec :=
             Int.rem (Int.add (lastAckRec st)
                              (ackAdvance (dgram o) lastSeqRec windowSize))
                     (Int.add windowSize 1);
           lastFrameSent := lfs; timeout := timeout st;
           buffer := buf; message := msg;
           msgNum := Int.add (msgNum st) 1; at_pc := AtStart;
           sent := Message (Int.rem (msgNum st) seqRange) :: sent st |}).

(** One observation of the environment and the code run on it. *)
Definition client_step (words : nat) (max windowSize : Z) (o : obs) (st : client)
  : result client :=
  match at_pc st with
  | AtReturn => Ok st
  | AtStart =>
      Ok {| retrans := retrans st; lastAckRec := lastAckRec st;
            lastFrameSent := lastFrameSent st;
            timeout := Timer.start (now o);
            buffer := buffer st; message := message st; msgNum := msgNum st;
            at_pc := AtWhile; sent := sent st |}
  | AtWhile =>
      if full windowSize st
      then wait max windowSize o st
      else send words max windowSize o st
  end.

Fixpoint client_run (words : nat) (max windowSize : Z) (script : list obs)
  (st : client) : result client :=
  match script with
  | [] => Ok st
  | o :: script' =>
      st' ← client_step words max windowSize o st;
      client_run words max windowSize script' st'
  end.

(** The state of [clientSlidingWindow(sock, max, message, windowSize)]
    after the observations of [script]. *)
Definition clientSlidingWindow (words : nat) (max : Z) (message : list Z)
  (windowSize : Z) (script : list obs) : result client :=
  client_run words max windowSize script (client_init max windowSize message).

End WindowClient.

Module WindowServer.

Inductive event : Type :=
  | Recv (seq : Z)            (* recvFrom read a frame with message[0] = seq *)
  | Mark (seq : Z)            (* buffer[seq] = true *)
  | Test (entry : Z) (occupied : bool)
                              (* the inner loop read buffer[entry] *)
  | Advance (from to : Z)     (* buffer[from] = false; lastAckSent = to *)
  | AckTo (ack : Z).          (* ackTo sent [ack] *)

Record server : Type := {
  largestAccFrame : Z;
  lastAckSent : Z;
  buffer : list bool;
  msgToAck : Z;
  log : list event            (* newest first *)
}.

Definition seqRange (windowSize : Z) : Z := Int.add (Int.mul windowSize 2) 1.

Definition next (windowSize : Z) (st : server) : Z :=
  Int.rem (Int.add (lastAckSent st) 1) (seqRange windowSize).

(** [offset = windowSize - (seqRange + largestAccFrame - message[0]) % seqRange]. *)
Definition offset (windowSize : Z) (st : server) (seq : Z) : Z :=
  Int.sub windowSize
    (Int.rem (Int.sub (Int.add (seqRange windowSize) (largestAccFrame st)) seq)
             (seqRange windowSize)).

Definition server_init (windowSize : Z) : server :=
  {| largestAccFrame := Int.sub windowSize 1;
     lastAckSent := Int.sub (seqRange windowSize) 1;
     buffer := replicate (Z.to_nat (seqRange windowSize)) false;
     msgToAck := 0; log := [] |}.

(** The state with one more event in its log. *)
Definition logged (e : event) (st : server) : server :=
  {| largestAccFrame := largestAccFrame st; lastAckSent := lastAckSent st;
     buffer := buffer st; msgToAck := msgToAck st; log := e :: log st |}.

(** The body of the inner [while] loop:
    [buffer[lastAckSent] = false; lastAckSent = (lastAckSent + 1) % seqRange;
    largestAccFrame = (largestAccFrame + 1) % seqRange;]. *)
Definition advance (windowSize : Z) (st : server) : result server :=
  buf ← assign (buffer st) (lastAckSent st) false;
  Ok {| largestAccFrame :=
          Int.rem (Int.add (largestAccFrame st) 1) (seqRange windowSize);
        lastAckSent := next windowSize st;
        buffer := buf; msgToAck := msgToAck st;
        log := Advance (lastAckSent st) (next windowSize st) :: log st |}.

(** The inner [while] loop, with a bound on its rounds:
    [while (buffer[(lastAckSent + 1) % seqRange] == true) { ... }]. *)
Fixpoint fold_acks (fuel : nat) (windowSize : Z) (st : server) : result server :=
  match fuel with
  | O => Fault Diverges
  | S fuel' =>
      occupied ← index (buffer st) (next windowSize st);
      let tested := logged (Test (next windowSize st) occupied) st in
      if (occupied : bool)
      then st' ← advance windowSize tested; fold_acks fuel' windowSize st'
      else Ok tested
  end.

(** [if (offset > 0) buffer[message[0]] = true;] *)
Definition accept (windowSize : Z) (seq : Z) (st : server) : result server :=
  if 0 <? offset windowSize st seq
  then
    buf ← assign (buffer st) seq true;
    Ok {| largestAccFrame := largestAccFrame st; lastAckSent := lastAckSent st;
          buffer := buf; msgToAck := msgToAck st;
          log := Mark seq :: Recv seq :: log st |}
  else Ok (logged (Recv seq) st).

(** One pass through the body of the [do] loop on a received frame whose
    first [int] is [seq], and the [++msgToAck] that follows when the loop
    is left ([offset > 0]). *)
Definition server_recv (windowSize : Z) (seq : Z) (st : server) : result server :=
  st1 ← accept windowSize seq st;
  st2 ← fold_acks (S (S (length (buffer st1)))) windowSize st1;
  Ok {| largestAccFrame := largestAccFrame st2; lastAckSent := lastAckSent st2;
        buffer := buffer st2;
        msgToAck := if offset windowSize st seq <=? 0
                    then msgToAck st2
                    else Int.add (msgToAck st2) 1;
        log := AckTo (next windowSize st2) :: log st2 |}.

(** The shape of the state between two receives: the occupancy map has
    [2 * windowSize + 1] entries and both cursors are positions of the
    ring. *)
Definition server_wf (windowSize : Z) (st : server) : Prop :=
  length (buffer st) = Z.to_nat (2 * windowSize + 1) /\
  0 <= lastAckSent st < 2 * windowSize + 1 /\
  0 <= largestAccFrame st < 2 * windowSize + 1.

(** Nothing left to fold: the entry after [lastAckSent] is empty. *)
Definition quiescent (windowSize : Z) (st : server) : Prop :=
  buffer st !! Z.to_nat ((lastAckSent st + 1) mod (2 * windowSize + 1))
  = Some false.

(** In a log (newest first), entry [i] has been set on the receipt of a
    frame numbered [i] and not cleared since: the entry [i] is cleared when
    [lastAckSent] leaves [i]. *)
Definition marked_since (i : Z) (older : list event) : Prop :=
  exists after before,
    older = after ++ Mark i :: Recv i :: before /\
    forall c, ~ In (Advance i c) after.

(** Every entry that is set was set by a received frame. *)
Definition log_inv (st : server) : Prop :=
  forall i, 0 <= i ->
    buffer st !! Z.to_nat i = Some true -> marked_since i (log st).

(** Every move of [lastAckSent] in a log is a move to the next position of
    the ring, made right after the entry at that position was read as set,
    and that entry was set by a received frame. *)
Definition advances_ok (windowSize : Z) (l : list event) : Prop :=
  forall newer a b older,
    l = newer ++ Advance a b :: older ->
    b = (a + 1) mod (2 * windowSize + 1) /\
    (exists older', older = Test b true :: older') /\
    marked_since b older.

Definition is_ack (e : event) : bool :=
  match e with
  | AckTo _ => true
  | _ => false
  end.

Definition is_recv (e : event) : bool :=
  match e with
  | Recv _ => true
  | _ => false
  end.

(** The number of entries set in an occupancy map. *)
Fixpoint count_true (l : list bool) : nat :=
  match l with
  | [] => O
  | b :: l' => ((if b then 1 else 0) + count_true l')%nat
  end.

(** A bound on the rounds the inner loop still has to run. *)
Definition rounds_left (st : server) : nat :=
  (count_true (buffer st)
   + (if buffer st !! Z.to_nat (lastAckSent st) is Some true then 0 else 1))%nat.

(** What holds of the server between two events. *)
Definition server_inv (windowSize : Z) (st : server) : Prop :=
  server_wf windowSize st /\ log_inv st /\ advances_ok windowSize (log st).

(** The acceptance window follows the cumulative pointer, and only entries
    of the window are set: [largestAccFrame] is [windowSize] positions after
    [lastAckSent] on the ring, and a set entry is at [lastAckSent] or at one
    of the [windowSize] positions after it. *)
Definition window_inv (windowSize : Z) (st : server) : Prop :=
  largestAccFrame st = (lastAckSent st + windowSize) mod (2 * windowSize + 1) /\
  forall i, 0 <= i < 2 * windowSize + 1 ->
    buffer st !! Z.to_nat i = Some true ->
    (i - lastAckSent st) mod (2 * windowSize + 1) <= windowSize.

(** The acknowledgments of a log, newest first. *)
Fixpoint acks_of (l : list event) : list Z :=
  match l with
  | [] => []
  | AckTo v :: l' => v :: acks_of l'
  | _ :: l' => acks_of l'
  end.

(** The number of writes [buffer[seq] = true] in a log. *)
Fixpoint count_marks (l : list event) : nat :=
  match l with
  | [] => O
  | Mark _ :: l' => S (count_marks l')
  | _ :: l' => count_marks l'
  end.

(** The sequence numbers of the messages [k], [k + 1], ... ([n] of them) on
    a ring of [ring] positions. *)
Fixpoint numbers (ring : Z) (n : nat) (k : Z) : list Z :=
  match n with
  | O => []
  | S n' => k mod ring :: numbers ring n' (k + 1)
  end.

(** The server after the frames of the messages below [k] have arrived in
    order: everything up to message [k - 1] is folded into [lastAckSent] and
    no other entry is set. *)
Definition in_order (windowSize k : Z) (st : server) : Prop :=
  server_wf windowSize st /\
  lastAckSent st = (k - 1) mod (2 * windowSize + 1) /\
  largestAccFrame st = (k - 1 + windowSize) mod (2 * windowSize + 1) /\
  msgToAck st = k /\
  forall i, 0 <= i < 2 * windowSize + 1 -> i <> lastAckSent st ->
    buffer st !! Z.to_nat i = Some false.

Fixpoint server_run (max windowSize : Z) (frames : list Z) (st : server)
  : result server :=
  match frames with
  | [] => Ok st
  | seq :: frames' =>
      if msgToAck st <? max
      then st' ← server_recv windowSize seq st;
           server_run max windowSize frames' st'
      else Ok st
  end.

(** The state of [serverEarlyRetrans(sock, max, message, windowSize)] after
    the frames of [frames] have arrived. *)
Definition serverEarlyRetrans (max windowSize : Z) (frames : list Z)
  : result server :=
  server_run max windowSize frames (server_init windowSize).

(** The state after the frame numbered 1 has arrived, ahead of frame 0,
    with [windowSize = 2]. *)
Definition after_frame_1 : server :=
  Eval vm_compute in
    match serverEarlyRetrans 5 2 [1] with
    | Ok st => st
    | Fault _ => server_init 2
    end.

(** The state after the frames numbered 1 and 0 have arrived, in that
    order, with [windowSize = 2]. *)
Definition after_frames_1_0 : server :=
  Eval vm_compute in
    match serverEarlyRetrans 5 2 [1; 0] with
    | Ok st => st
    | Fault _ => server_init 2
    end.

End WindowServer.

(** ** Sessions of the sliding-window client *)

Module WindowSession.

(** The sequence numbers of the new frames in a record of [sendTo] calls,
    newest first. *)
Fixpoint messages_of (l : list WindowClient.sendbuf) : list Z :=
  match l with
  | [] => []
  | WindowClient.Message seq :: l' => seq :: messages_of l'
  | WindowClient.Address _ :: l' => messages_of l'
  end.

(** The number of retransmission calls in a record of [sendTo] calls. *)
Fixpoint count_resends (l : list WindowClient.sendbuf) : nat :=
  match l with
  | [] => O
  | WindowClient.Address _ :: l' => S (count_resends l')
  | WindowClient.Message _ :: l' => count_resends l'
  end.

(** What [clientSlidingWindow] keeps between two observations, whatever
    arrives: [msgNum] counts the new frames sent, the leading cursor is
    [msgNum] reduced to the ring of slots, the new frames carry the numbers
    0, 1, ... reduced to the ring of sequence numbers, the counter is the
    number of retransmission calls (as an [int]), and the function has
    returned exactly when [msgNum] has reached [max]. *)
Definition client_inv (max windowSize : Z) (st : WindowClient.client) : Prop :=
  0 <= WindowClient.msgNum st <= Z.max 0 max /\
  WindowClient.lastFrameSent st = WindowClient.msgNum st mod (windowSize + 1) /\
  rev (messages_of (WindowClient.sent st))
  = WindowServer.numbers (2 * windowSize + 1)
      (Z.to_nat (WindowClient.msgNum st)) 0 /\
  WindowClient.retrans st
  = Int.wrap (Z.of_nat (count_resends (WindowClient.sent st))) /\
  (WindowClient.at_pc st = WindowClient.AtReturn <-> max <= WindowClient.msgNum st).

(** The observations of a run without loss or delay, for [n] messages from
    message index [k] on: the clock at [timeout.start()], then, at the poll
    after the frame is sent, the acknowledgment [serverEarlyRetrans] sends
    for it, the number of the next message. *)
Fixpoint lossless (ring : Z) (n : nat) (k : Z) : list obs :=
  match n with
  | O => []
  | S n' =>
      {| now := 0; dgram := None |}
      :: {| now := 0; dgram := Some ((k + 1) mod ring) |}
      :: lossless ring n' (k + 1)
  end.

(** The client at the head of its [for] loop after [k] messages sent and
    acknowledged without loss: both cursors at the slot of message [k - 1],
    nothing retransmitted. *)
Definition in_step (words : nat) (max windowSize k : Z)
    (st : WindowClient.client) : Prop :=
  WindowClient.msgNum st = k /\
  WindowClient.retrans st = 0 /\
  WindowClient.lastFrameSent st = k mod (windowSize + 1) /\
  WindowClient.lastAckRec st = k mod (windowSize + 1) /\
  length (WindowClient.buffer st) = Z.to_nat ((windowSize + 1) * max) /\
  (words <= length (WindowClient.message st))%nat /\
  WindowClient.at_pc st
  = (if k <? max then WindowClient.AtStart else WindowClient.AtReturn).

(** The client, with [windowSize = 1] and [max = 3], after frame 0 has been
    acknowledged at once and frame 1 has not: the window is full and the
    trailing cursor is at the last slot. *)
Definition full_at_last_slot : WindowClient.client :=
  Eval vm_compute in
    match WindowClient.clientSlidingWindow 2 3 [0; 7] 1
            [ {| now := 0; dgram := None |}; {| now := 1; dgram := Some 1 |};
              {| now := 2; dgram := None |}; {| now := 3; dgram := None |};
              {| now := 4; dgram := None |} ] with
    | Ok st => st
    | Fault _ => WindowClient.client_init 3 1 [0; 7]
    end.

End WindowSession.

(** * Properties *)

(** ** C integers and arrays *)

Lemma Int_wrap_small z : Int.in_range z -> Int.wrap z = z.
Proof.
  unfold Int.in_range, Int.min_int, Int.max_int, Int.wrap. intros H.
  rewrite Z.mod_small by lia. lia.
Qed.

Lemma Int_wrap_in_range z : Int.in_range (Int.wrap z).
Proof.
  unfold Int.in_range, Int.min_int, Int.max_int, Int.wrap.
  pose proof (Z.mod_pos_bound (z + 2147483648) 4294967296). lia.
Qed.

Lemma Int_add_small a b : Int.in_range (a + b) -> Int.add a b = a + b.
Proof. apply Int_wrap_small. Qed.

Lemma Int_sub_small a b : Int.in_range (a - b) -> Int.sub a b = a - b.
Proof. apply Int_wrap_small. Qed.

Lemma Int_mul_small a b : Int.in_range (a * b) -> Int.mul a b = a * b.
Proof. apply Int_wrap_small. Qed.

Ltac int_range := unfold Int.in_range, Int.min_int, Int.max_int in *; lia.

(** Remove the wrap-around from the operations whose exact result is seen
    to be in range. *)
Ltac int_small :=
  repeat match goal with
    | |- context [Int.add ?a ?b] => rewrite (Int_add_small a b) by int_range
    | |- context [Int.sub ?a ?b] => rewrite (Int_sub_small a b) by int_range
    | |- context [Int.mul ?a ?b] => rewrite (Int_mul_small a b) by int_range
    end.

(** On a non-negative dividend and a positive divisor [%] is [mod]. *)
Lemma Int_rem_nonneg a b : 0 <= a -> 0 < b -> Int.rem a b = a mod b.
Proof. intros. unfold Int.rem. apply Z.rem_mod_nonneg; lia. Qed.

Lemma Int_rem_bound a b : 0 < b -> - b < Int.rem a b < b.
Proof.
  intros Hb. unfold Int.rem.
  assert (Hnz : b <> 0) by lia.
  pose proof (Z.rem_bound_abs a b Hnz). lia.
Qed.

Lemma index_Ok {A : Type} (arr : list A) (i : Z) (a : A) :
  index arr i = Ok a <-> 0 <= i /\ arr !! Z.to_nat i = Some a.
Proof.
  unfold index. destruct (Z.leb_spec 0 i) as [Hi | Hi].
  - destruct (arr !! Z.to_nat i) eqn:E; split.
    + intros [= ->]. auto.
    + intros [_ [= ->]]. reflexivity.
    + discriminate.
    + intros [_ [=]].
  - split; [discriminate | lia].
Qed.

Lemma assign_Ok {A : Type} (arr arr' : list A) (i : Z) (a : A) :
  assign arr i a = Ok arr' <->
  0 <= i < Z.of_nat (length arr) /\ arr' = <[Z.to_nat i := a]> arr.
Proof.
  unfold assign.
  destruct (Z.leb_spec 0 i), (Z.ltb_spec i (Z.of_nat (length arr))); simpl;
    split; try discriminate; try (intros [= <-]; split; [lia | reflexivity]);
    try (intros [? ->]; reflexivity || lia); intros [? _]; lia.
Qed.
(** ** Stop-and-wait *)

Lemma land_one_mod_two n : Int.band n 1 = n mod 2.
Proof. unfold Int.band. change 1 with (Z.ones 1). rewrite Z.land_ones by lia. reflexivity. Qed.

(** The receiver's loop condition compares the frame's sequence field with
    the loop index itself. *)
Lemma again_is_index_test frame msgToAck :
  StopWait.again frame msgToAck = negb (frame =? msgToAck).
Proof.
  unfold StopWait.again, Int.truth, Int.band, Int.ne, Int.of_bool.
  destruct (frame =? msgToAck); reflexivity.
Qed.

Section StopWaitClient.

Import StopWait.

Variable max : Z.
Hypothesis max_int_range : Int.in_range max.

Lemma for_head_inv st :
  0 <= msgNum st -> client_inv max (for_head max st).
Proof.
  intros Hn. unfold for_head, client_inv.
  destruct (Z.ltb_spec (msgNum st) max); simpl.
  - split; [assumption | intros _; split; [assumption | apply land_one_mod_two]].
  - split; [assumption | congruence].
Qed.

Lemma client_step_inv o st : client_inv max st -> client_inv max (client_step max o st).
Proof.
  intros [Hn Hrun]. unfold client_step.
  destruct (at_pc st) eqn:Hpc.
  - split; simpl; [assumption | intros _; apply Hrun; congruence].
  - destruct (dgram o) as [ack |].
    + destruct (ack =? message0 st); simpl.
      * apply for_head_inv. simpl.
        destruct Hrun as [Hlt _]; [congruence |].
        rewrite Int_add_small; [lia |].
        unfold Int.in_range, Int.min_int, Int.max_int in *. lia.
      * split; simpl; [assumption | intros _; apply Hrun; congruence].
    + destruct (MAX_TIME <? Timer.lap (timeout st) (now o)).
      * split; simpl; [assumption | intros _; apply Hrun; congruence].
      * split; [assumption | rewrite Hpc; exact Hrun].
  - split; [assumption | rewrite Hpc; congruence].
Qed.

Lemma clientStopWait_inv script : client_inv max (clientStopWait max script).
Proof.
  unfold clientStopWait.
  assert (H0 : client_inv max (for_head max client_init)) by (apply for_head_inv; simpl; lia).
  revert H0. generalize (for_head max client_init).
  induction script as [| o script IH]; intros st Hst; simpl.
  - exact Hst.
  - apply IH, client_step_inv, Hst.
Qed.

End StopWaitClient.

(** The alternating bit of [clientStopWait].  For every message index [n]
    reached: while the function has not returned, [0 <= n < max] and
    [message[0]] is [n mod 2]; the body of the [do] loop sends the frame with
    that bit; the index moves on (the per-message loop ends) only on an
    acknowledgment equal to [n mod 2]; an acknowledgment that differs leaves
    the index where it is, sends the function back to the [sendTo] of the
    same frame, and adds [ack xor (n mod 2)] to the retransmission counter,
    which is exactly one when the acknowledgment is itself a bit. *)
Theorem clientStopWait_alternating_bit (max : Z) (script : list obs) (o : obs) :
  Int.in_range max ->
  let st := StopWait.clientStopWait max script in
  let st' := StopWait.client_step max o st in
  let n := StopWait.msgNum st in
  (StopWait.at_pc st <> StopWait.AtReturn ->
     0 <= n < max /\ StopWait.message0 st = n mod 2) /\
  (StopWait.at_pc st = StopWait.AtSend ->
     StopWait.sent st' = n mod 2 :: StopWait.sent st /\
     StopWait.msgNum st' = n /\ StopWait.at_pc st' = StopWait.AtPoll) /\
  (StopWait.msgNum st' <> n ->
     StopWait.at_pc st = StopWait.AtPoll /\ dgram o = Some (n mod 2) /\
     StopWait.msgNum st' = n + 1) /\
  (StopWait.at_pc st = StopWait.AtPoll ->
     forall ack, dgram o = Some ack ->
       (ack = n mod 2 -> StopWait.msgNum st' = n + 1) /\
       (ack <> n mod 2 ->
          StopWait.msgNum st' = n /\
          StopWait.at_pc st' = StopWait.AtSend /\
          StopWait.message0 st' = n mod 2 /\
          StopWait.sent st' = StopWait.sent st /\
          StopWait.retrans st' =
            Int.add (StopWait.retrans st) (Z.lxor ack (n mod 2)) /\
          (ack = 0 \/ ack = 1 ->
             StopWait.retrans st' = Int.add (StopWait.retrans st) 1))).
Proof.
  intros Hmax st st' n.
  pose proof (clientStopWait_inv max Hmax script) as [Hn Hrun].
  fold st in Hn, Hrun. fold n in Hn, Hrun.
  assert (Hstep : forall ack, StopWait.at_pc st = StopWait.AtPoll ->
            dgram o = Some ack ->
            (ack = n mod 2 -> StopWait.msgNum st' = n + 1) /\
            (ack <> n mod 2 ->
               StopWait.msgNum st' = n /\
               StopWait.at_pc st' = StopWait.AtSend /\
               StopWait.message0 st' = n mod 2 /\
               StopWait.sent st' = StopWait.sent st /\
               StopWait.retrans st' =
                 Int.add (StopWait.retrans st) (Z.lxor ack (n mod 2)))).
  { intros ack Hpc Hack.
    destruct Hrun as [Hlt Hbit]; [congruence |].
    subst st'. unfold StopWait.client_step. rewrite Hpc, Hack, Hbit.
    destruct (Z.eqb_spec ack (n mod 2)) as [-> | Hne]; simpl.
    - split; [intros _ | congruence].
      unfold StopWait.for_head; simpl.
      assert (Hnext : Int.add (StopWait.msgNum st) 1 = n + 1).
      { apply Int_add_small. fold n.
        unfold Int.in_range, Int.min_int, Int.max_int in *. lia. }
      rewrite Hnext. destruct (n + 1 <? max); reflexivity.
    - split; [congruence | intros _]. unfold Int.bxor. auto. }
  split; [intros Hpc; destruct (Hrun Hpc); auto |].
  split.
  { intros Hpc. destruct Hrun as [_ Hbit]; [congruence |].
    subst st'. unfold StopWait.client_step. rewrite Hpc. simpl.
    rewrite Hbit. auto. }
  split.
  { intros Hmoved.
    destruct (StopWait.at_pc st) eqn:Hpc.
    - exfalso. apply Hmoved. subst st'. unfold StopWait.client_step.
      rewrite Hpc. reflexivity.
    - destruct (dgram o) as [ack |] eqn:Hack.
      + destruct (Hstep ack eq_refl eq_refl) as [Heq Hne].
        destruct (Z.eq_dec ack (n mod 2)) as [-> | Hdiff].
        * auto.
        * exfalso. apply Hmoved. apply Hne. exact Hdiff.
      + exfalso. apply Hmoved. subst st'. unfold StopWait.client_step.
        rewrite Hpc, Hack.
        destruct (MAX_TIME <? Timer.lap (StopWait.timeout st) (now o)); reflexivity.
    - exfalso. apply Hmoved. subst st'. unfold StopWait.client_step.
      rewrite Hpc. reflexivity. }
  intros Hpc ack Hack.
  destruct (Hstep ack Hpc Hack) as [Heq Hne].
  split; [exact Heq |].
  intros Hdiff. destruct (Hne Hdiff) as (H1 & H2 & H3 & H4 & H5).
  repeat (split; [assumption |]).
  intros Hbit. rewrite H5. f_equal.
  assert (Hn2 : n mod 2 = 0 \/ n mod 2 = 1)
    by (pose proof (Z.mod_pos_bound n 2); lia).
  destruct Hbit as [-> | ->], Hn2 as [Hn2 | Hn2]; rewrite Hn2 in *;
    try reflexivity; congruence.
Qed.

Lemma clientStopWait_alternating_bit_witness :
  Int.in_range 3 /\
  StopWait.retrans
    (StopWait.client_step 3 {| now := 30; dgram := Some 0 |}
       (StopWait.clientStopWait 3
          [ {| now := 0; dgram := None |}; {| now := 10; dgram := Some 0 |};
            {| now := 20; dgram := None |} ])) = Int.add 0 1.
Proof.
  assert (H3 : Int.in_range 3) by (unfold Int.in_range, Int.min_int, Int.max_int; lia).
  split; [exact H3 |].
  pose proof (clientStopWait_alternating_bit 3
                [ {| now := 0; dgram := None |}; {| now := 10; dgram := Some 0 |};
                  {| now := 20; dgram := None |} ]
                {| now := 30; dgram := Some 0 |} H3) as H.
  simpl in H. destruct H as (_ & _ & _ & H).
  destruct (H eq_refl 0 eq_refl) as [_ Hne].
  destruct Hne as (_ & _ & _ & _ & _ & Hone); [discriminate |].
  apply Hone. left. reflexivity.
Defined.

(** C8: the retransmission counter on a wrong acknowledgment.  With
    [max = 1], frame 0 is sent and an acknowledgment is read that differs
    from the bit sent.  The frame is sent again, but the counter does not
    grow by one: the update is [retrans += seqNum ^ message[0]], written for
    an acknowledgment that is a bit, so the value 2 adds two and the value
    -1 takes one away; the run in which the frame is acknowledged with -1,
    sent again and then acknowledged with 0 returns -1 after one
    retransmission. *)
Theorem clientStopWait_wrong_ack_miscounted :
  let st := StopWait.clientStopWait 1 [ {| now := 0; dgram := None |} ] in
  let two := StopWait.client_step 1 {| now := 1; dgram := Some 2 |} st in
  let neg := StopWait.client_step 1 {| now := 1; dgram := Some (-1) |} st in
  let run := StopWait.clientStopWait 1
               [ {| now := 0; dgram := None |}; {| now := 1; dgram := Some (-1) |};
                 {| now := 2; dgram := None |}; {| now := 3; dgram := Some 0 |} ] in
  (StopWait.at_pc st = StopWait.AtPoll /\ StopWait.msgNum st = 0 /\
   StopWait.message0 st = 0 /\ StopWait.sent st = [0] /\ StopWait.retrans st = 0) /\
  (StopWait.at_pc two = StopWait.AtSend /\ StopWait.msgNum two = 0 /\
   StopWait.retrans two = 2 /\ StopWait.retrans two <> StopWait.retrans st + 1) /\
  (StopWait.at_pc neg = StopWait.AtSend /\ StopWait.msgNum neg = 0 /\
   StopWait.retrans neg = -1 /\ StopWait.retrans neg <> StopWait.retrans st + 1) /\
  (StopWait.sent run = [0; 0] /\ StopWait.returned run = Some (-1)).
Proof. vm_compute. repeat split; congruence. Qed.

(** C1: the receiver's guard.  With [max = 3] and the frames of an
    alternating-bit sender (bits 0, 1, 0, and the third frame again and
    again), [serverReliable] acknowledges every frame but stays at expected
    index 2: its guard [(message[0] != msgToAck) & 1] compares the received
    bit 0 with the index 2, not with [2 mod 2]. *)
Theorem serverReliable_stalls_at_index_two :
  StopWait.again 0 2 = true /\
  negb (0 =? 2 mod 2) = false /\
  StopWait.msgToAck (StopWait.serverReliable 3 [0; 1; 0; 0; 0]) = 2 /\
  StopWait.acked (StopWait.serverReliable 3 [0; 1; 0; 0; 0]) = [0; 0; 0; 1; 0].
Proof. repeat split. Qed.

(** ** [ackAdvance] *)

Lemma seqRange_small w :
  small_window w -> Int.add (Int.mul w 2) 1 = 2 * w + 1.
Proof.
  intros [Hpos Hmax]. unfold Int.max_int in Hmax.
  rewrite Int_mul_small by (unfold Int.in_range, Int.min_int, Int.max_int; lia).
  rewrite Int_add_small by (unfold Int.in_range, Int.min_int, Int.max_int; lia).
  lia.
Qed.

Lemma ackAdvance_nothing lastSeqRec w : ackAdvance None lastSeqRec w = 0.
Proof. reflexivity. Qed.

(** On acknowledgments and sequence numbers of the ring the function does
    what its comment says. *)
Lemma ackAdvance_in_ring w lastSeqRec recAckNum :
  small_window w ->
  0 <= lastSeqRec < 2 * w + 1 ->
  0 <= recAckNum < 2 * w + 1 ->
  ackAdvance (Some recAckNum) lastSeqRec w =
    (if (recAckNum - (lastSeqRec + 1)) mod (2 * w + 1) <? w
     then (recAckNum - lastSeqRec) mod (2 * w + 1)
     else 0) /\
  0 <= ackAdvance (Some recAckNum) lastSeqRec w <= w.
Proof.
  intros Hw Hl Hr. pose proof Hw as [Hpos Hmax]. unfold Int.max_int in Hmax.
  unfold ackAdvance. rewrite (seqRange_small w Hw).
  rewrite (Int_add_small lastSeqRec 1)
    by (unfold Int.in_range, Int.min_int, Int.max_int; lia).
  rewrite !Int_sub_small by (unfold Int.in_range, Int.min_int, Int.max_int; lia).
  rewrite !Int_add_small by (unfold Int.in_range, Int.min_int, Int.max_int; lia).
  rewrite !Int_rem_nonneg by lia.
  replace (recAckNum - (lastSeqRec + 1) + (2 * w + 1))
    with (recAckNum - (lastSeqRec + 1) + 1 * (2 * w + 1)) by lia.
  replace (recAckNum - lastSeqRec + (2 * w + 1))
    with (recAckNum - lastSeqRec + 1 * (2 * w + 1)) by lia.
  rewrite !Z_mod_plus_full.
  split; [reflexivity |].
  destruct (Z.ltb_spec ((recAckNum - (lastSeqRec + 1)) mod (2 * w + 1)) w) as [Hd | Hd];
    [| lia].
  assert (Hlink : (recAckNum - lastSeqRec) mod (2 * w + 1)
                  = (recAckNum - (lastSeqRec + 1)) mod (2 * w + 1) + 1).
  { pose proof (Z.mod_pos_bound (recAckNum - (lastSeqRec + 1)) (2 * w + 1)).
    symmetry. apply Z.mod_unique_pos
      with (q := (recAckNum - (lastSeqRec + 1)) / (2 * w + 1)); [lia |].
    pose proof (Z.div_mod (recAckNum - (lastSeqRec + 1)) (2 * w + 1)). lia. }
  pose proof (Z.mod_pos_bound (recAckNum - (lastSeqRec + 1)) (2 * w + 1)). lia.
Qed.

Lemma ackAdvance_duplicate w lastSeqRec :
  small_window w -> 0 <= lastSeqRec < 2 * w + 1 ->
  ackAdvance (Some lastSeqRec) lastSeqRec w = 0.
Proof.
  intros Hw Hl. destruct (ackAdvance_in_ring w lastSeqRec lastSeqRec Hw Hl Hl) as [-> _].
  replace (lastSeqRec - (lastSeqRec + 1)) with (-1) by lia.
  pose proof Hw as [Hpos _].
  assert (Hm : -1 mod (2 * w + 1) = 2 * w).
  { symmetry. apply Z.mod_unique_pos with (q := -1); lia. }
  rewrite Hm. destruct (Z.ltb_spec (2 * w) w); [lia | reflexivity].
Qed.

(** C2, at an acknowledgment outside the ring.  With [windowSize = 1]
    (ring of 3), [lastSeqRec = 0] and the received value [-4], the range
    test [(-4 - 1 + 3) % 3 < 1] passes because [%] gives [-2], and the
    function returns [(-4 - 0 + 3) % 3 = -1]: a value outside
    [0 .. windowSize], where the acknowledgment is not within one position
    ahead of [lastSeqRec + 1] modulo 3 ([(-4 - 1) mod 3 = 1]) and the result
    should be 0. *)
Theorem ackAdvance_negative_ack :
  ackAdvance (Some (-4)) 0 1 = -1 /\
  ((-4 - (0 + 1)) mod (2 * 1 + 1) <? 1) = false /\
  ~ 0 <= ackAdvance (Some (-4)) 0 1 <= 1.
Proof. vm_compute. repeat split; try congruence. intros [H _]. apply H. reflexivity. Qed.


(** ** [clientSlidingWindow] *)

(** With both cursors inside the ring of [windowSize + 1] slots, the count
    of the retransmission loop is at most [windowSize] and reaches it
    exactly when the [while] condition holds. *)
Lemma window_full_iff_count w (st : WindowClient.client) :
  small_window w ->
  0 <= WindowClient.lastAckRec st <= w ->
  0 <= WindowClient.lastFrameSent st <= w ->
  0 <= WindowClient.outstanding w st <= w /\
  (WindowClient.full w st = true <-> WindowClient.outstanding w st = w).
Proof.
  intros [Hpos Hmax] Ha Hf. unfold Int.max_int in Hmax.
  unfold WindowClient.outstanding, WindowClient.full.
  int_small. rewrite !Int_rem_nonneg by lia.
  set (a := WindowClient.lastAckRec st) in *.
  set (f := WindowClient.lastFrameSent st) in *.
  pose proof (Z.mod_pos_bound (f - a + w + 1) (w + 1)).
  split; [lia |].
  rewrite Z.eqb_eq.
  destruct (Z.eq_dec f w) as [-> | Hfw].
  - replace (w + 1) with (1 * (w + 1)) at 1 by lia.
    rewrite Z_mod_mult.
    destruct (Z.eq_dec a 0) as [-> | Ha0].
    + replace (w - 0 + w + 1) with (w + 1 * (w + 1)) by lia.
      rewrite Z_mod_plus_full, Z.mod_small by lia. lia.
    + replace (w - a + w + 1) with (w - a + 1 * (w + 1)) by lia.
      rewrite Z_mod_plus_full, Z.mod_small by lia. lia.
  - rewrite (Z.mod_small (f + 1)) by lia.
    destruct (Z_le_gt_dec a f) as [Hle | Hgt].
    + replace (f - a + w + 1) with (f - a + 1 * (w + 1)) by lia.
      rewrite Z_mod_plus_full, Z.mod_small by lia. lia.
    + rewrite Z.mod_small by lia. lia.
Qed.

(** C3, at a timeout with a full window.  [windowSize = 2], [max = 5]:
    frames 0 and 1 are sent and stored in slots 1 and 2, no acknowledgment
    arrives, the window is full and the timer passes 1500.  The
    retransmission loop runs over slots 1 and 2 in order, adds 2 (the number
    of outstanding frames) to [retrans] and restarts the timer, but what it
    passes to [sendTo] is [(char* )buffer[...]]: the [int]s stored there (the
    sequence numbers 0 and 1) taken as addresses, not the stored frames. *)
Theorem clientSlidingWindow_resends_value_as_address :
  let before :=
    WindowClient.clientSlidingWindow 2 5 [0; 7] 2
      [ {| now := 0; dgram := None |}; {| now := 1; dgram := None |};
        {| now := 2; dgram := None |}; {| now := 3; dgram := None |};
        {| now := 4; dgram := None |} ] in
  exists st st',
    before = Ok st /\
    WindowClient.at_pc st = WindowClient.AtWhile /\
    WindowClient.full 2 st = true /\
    WindowClient.outstanding 2 st = 2 /\
    WindowClient.lastAckRec st = 0 /\ WindowClient.lastFrameSent st = 2 /\
    WindowClient.buffer st !! 5%nat = Some (Some 0) /\
    WindowClient.buffer st !! 10%nat = Some (Some 1) /\
    WindowClient.client_step 2 5 2 {| now := 1600; dgram := None |} st = Ok st' /\
    WindowClient.sent st' =
      WindowClient.Address 1 :: WindowClient.Address 0 :: WindowClient.sent st /\
    WindowClient.retrans st' = WindowClient.retrans st + 2 /\
    WindowClient.timeout st' = Timer.start 1600.
Proof.
  intros before. do 2 eexists.
  split; [vm_compute; reflexivity |].
  repeat split; vm_compute; reflexivity.
Qed.

(** C4, after an acknowledgment outside the ring.  [windowSize = 1],
    [max = 3]: frame 0 is sent and the value [-4] arrives; [ackAdvance]
    returns [-1] and [lastAckRec] becomes [-1].  After frame 1 the count of
    outstanding frames is 1, the window size, but the [while] condition is
    false, and the function sends frame 2. *)
Theorem clientSlidingWindow_sends_with_full_window :
  let before :=
    WindowClient.clientSlidingWindow 2 3 [0; 7] 1
      [ {| now := 0; dgram := None |}; {| now := 1; dgram := Some (-4) |};
        {| now := 2; dgram := None |}; {| now := 3; dgram := None |};
        {| now := 4; dgram := None |} ] in
  exists st st',
    before = Ok st /\
    WindowClient.at_pc st = WindowClient.AtWhile /\
    WindowClient.lastAckRec st = -1 /\ WindowClient.lastFrameSent st = 0 /\
    WindowClient.sent st = [WindowClient.Message 1; WindowClient.Message 0] /\
    WindowClient.outstanding 1 st = 1 /\
    WindowClient.full 1 st = false /\
    WindowClient.client_step 2 3 1 {| now := 5; dgram := None |} st = Ok st' /\
    WindowClient.sent st' = WindowClient.Message 2 :: WindowClient.sent st.
Proof.
  intros before. do 2 eexists.
  split; [vm_compute; reflexivity |].
  repeat split; vm_compute; reflexivity.
Qed.

(** C9, in the waiting loop.  [windowSize = 1], [max = 3], so [buffer] has
    6 cells.  Frame 0 is acknowledged at once ([lastAckRec] becomes 1), frame
    1 is not; the window is then full with [lastAckRec = 1 = windowSize], and
    the waiting loop reads [buffer[(lastAckRec + 1) * max]], that is
    [buffer[6]]. *)
Theorem clientSlidingWindow_wait_reads_past_buffer :
  let script :=
    [ {| now := 0; dgram := None |}; {| now := 1; dgram := Some 1 |};
      {| now := 2; dgram := None |}; {| now := 3; dgram := None |};
      {| now := 4; dgram := None |} ] in
  (exists st,
     WindowClient.clientSlidingWindow 2 3 [0; 7] 1 script = Ok st /\
     WindowClient.at_pc st = WindowClient.AtWhile /\
     length (WindowClient.buffer st) = 6%nat /\
     WindowClient.lastAckRec st = 1 /\ WindowClient.lastFrameSent st = 0 /\
     WindowClient.full 1 st = true /\
     Int.mul (Int.add (WindowClient.lastAckRec st) 1) 3 = (1 + 1) * 3) /\
  WindowClient.clientSlidingWindow 2 3 [0; 7] 1
    (script ++ [ {| now := 5; dgram := None |} ]) = Fault (OutOfBounds 6 6).
Proof.
  intros script. split; [| vm_compute; reflexivity].
  eexists. split; [vm_compute; reflexivity |].
  repeat split; vm_compute; reflexivity.
Qed.

(** ** [serverEarlyRetrans] *)

Section WindowServerFacts.

Import WindowServer.

Variable w : Z.
Hypothesis w_small : small_window w.

Lemma ring_eq : seqRange w = 2 * w + 1.
Proof. apply seqRange_small, w_small. Qed.

Lemma next_eq st :
  server_wf w st -> next w st = (lastAckSent st + 1) mod (2 * w + 1).
Proof.
  intros (_ & Ha & _). destruct w_small as [Hpos Hmax].
  unfold Int.max_int in Hmax. unfold next. rewrite ring_eq.
  int_small. apply Int_rem_nonneg; lia.
Qed.

Lemma next_range st :
  server_wf w st -> 0 <= next w st < 2 * w + 1 /\ next w st <> lastAckSent st.
Proof.
  intros Hwf. rewrite (next_eq st Hwf). destruct Hwf as (_ & Ha & _).
  destruct w_small as [Hpos _].
  pose proof (Z.mod_pos_bound (lastAckSent st + 1) (2 * w + 1)).
  split; [lia |].
  destruct (Z.eq_dec (lastAckSent st) (2 * w)) as [E | E].
  - rewrite E. replace (2 * w + 1) with (1 * (2 * w + 1)) at 1 by lia.
    rewrite Z_mod_mult. lia.
  - rewrite Z.mod_small by lia. lia.
Qed.

Lemma server_init_wf : server_wf w (server_init w).
Proof.
  destruct w_small as [Hpos Hmax]. unfold Int.max_int in Hmax.
  unfold server_wf, server_init; simpl. rewrite ring_eq.
  rewrite length_replicate. int_small. lia.
Qed.

Lemma count_true_le l : (count_true l <= length l)%nat.
Proof. induction l as [| [] l IH]; simpl; lia. Qed.

Lemma count_true_clear l i :
  (count_true (<[i := false]> l) + (if l !! i is Some true then 1 else 0)
   = count_true l)%nat.
Proof.
  revert i. induction l as [| b l IH]; intros [| i]; simpl; try lia.
  specialize (IH i). destruct b; lia.
Qed.

Lemma result_bind_Ok {A B : Type} (a : A) (k : A -> result B) :
  (Ok a ≫= k) = k a.
Proof. reflexivity. Qed.

Lemma marked_since_cons i e l :
  marked_since i l -> (forall c, e <> Advance i c) -> marked_since i (e :: l).
Proof.
  intros (after & before & -> & Hclean) He.
  exists (e :: after), before. split; [reflexivity |].
  intros c [Hc | Hc]; [apply (He c Hc) | apply (Hclean c Hc)].
Qed.

Lemma advances_ok_cons e l :
  advances_ok w l -> (forall a b, e <> Advance a b) -> advances_ok w (e :: l).
Proof.
  intros Hok He newer a b older Heq.
  destruct newer as [| e' newer]; simpl in Heq.
  - injection Heq as Heq _. exfalso. apply (He a b Heq).
  - injection Heq as _ Heq. apply (Hok newer a b older Heq).
Qed.

Lemma advances_ok_advance a b l l0 :
  advances_ok w l -> b = (a + 1) mod (2 * w + 1) ->
  l = Test b true :: l0 -> marked_since b l ->
  advances_ok w (Advance a b :: l).
Proof.
  intros Hok Hb Hl Hm newer a' b' older Heq.
  destruct newer as [| e' newer]; simpl in Heq.
  - injection Heq as <- <- <-. split; [exact Hb |]. split; [eauto | exact Hm].
  - injection Heq as _ Heq. apply (Hok newer a' b' older Heq).
Qed.

(** Logging what was read or received changes nothing else. *)
Lemma logged_inv e st :
  server_inv w st -> (forall a b, e <> Advance a b) -> server_inv w (logged e st).
Proof.
  intros (Hwf & Hlog & Hadv) He. split; [exact Hwf | split].
  - intros i Hi Hset. simpl in *.
    apply marked_since_cons; [apply Hlog; assumption |].
    intros c Hc. apply (He i c Hc).
  - apply advances_ok_cons; assumption.
Qed.

(** One round of the inner loop, after its test. *)
Lemma advance_inv st l0 :
  server_inv w st ->
  buffer st !! Z.to_nat (next w st) = Some true ->
  log st = Test (next w st) true :: l0 ->
  exists st',
    advance w st = Ok st' /\ server_inv w st' /\
    (rounds_left st' + 1 = rounds_left st)%nat /\
    msgToAck st' = msgToAck st /\
    lastAckSent st' = next w st /\
    log st' = Advance (lastAckSent st) (next w st) :: log st.
Proof.
  intros (Hwf & Hlog & Hadv) Hocc Htested.
  pose proof (next_range st Hwf) as [Hn Hne].
  pose proof (next_eq st Hwf) as Hnext.
  pose proof Hwf as (Hlen & Ha & Hl).
  destruct w_small as [Hpos Hmax]. unfold Int.max_int in Hmax.
  unfold advance, assign.
  destruct (Z.leb_spec 0 (lastAckSent st)); [| lia].
  destruct (Z.ltb_spec (lastAckSent st) (Z.of_nat (length (buffer st)))); [| lia].
  simpl. eexists. split; [reflexivity |].
  assert (Hnat : Z.to_nat (lastAckSent st) <> Z.to_nat (next w st)) by lia.
  split; [| split; [| auto]].
  - split; [| split]; simpl.
    + unfold server_wf; simpl.
      split; [rewrite length_insert; exact Hlen |]. split; [lia |].
      rewrite ring_eq. int_small. rewrite Int_rem_nonneg by lia.
      apply Z.mod_pos_bound. lia.
    + intros i Hi Hset. simpl in Hset.
      assert (Hia : Z.to_nat (lastAckSent st) <> Z.to_nat i).
      { intros E. rewrite <- E in Hset.
        rewrite list_lookup_insert_eq in Hset by lia. discriminate. }
      rewrite list_lookup_insert_ne in Hset by exact Hia.
      apply marked_since_cons; [apply Hlog; assumption |].
      intros c [= E _]. apply Hia. rewrite E. reflexivity.
    + apply (advances_ok_advance _ _ _ l0);
        [exact Hadv | exact Hnext | exact Htested |].
      apply Hlog; [lia | exact Hocc].
  - unfold rounds_left; simpl.
    rewrite list_lookup_insert_ne by exact Hnat. rewrite Hocc.
    pose proof (count_true_clear (buffer st) (Z.to_nat (lastAckSent st))).
    destruct (buffer st !! Z.to_nat (lastAckSent st)) as [[] |]; lia.
Qed.

Lemma index_next st :
  server_wf w st ->
  exists b, buffer st !! Z.to_nat (next w st) = Some b /\
            index (buffer st) (next w st) = Ok b.
Proof.
  intros Hwf. pose proof (next_range st Hwf) as [Hn _].
  destruct Hwf as (Hlen & _).
  destruct (lookup_lt_is_Some_2 (buffer st) (Z.to_nat (next w st))) as [b Hb];
    [lia |].
  exists b. split; [exact Hb |]. apply index_Ok. split; [lia | exact Hb].
Qed.

(** The inner loop ends, on a state with nothing left to fold; on a state
    with nothing to fold it only reads the next entry. *)
Lemma fold_acks_ok fuel st :
  server_inv w st -> (rounds_left st < fuel)%nat ->
  exists st' mid,
    fold_acks fuel w st = Ok st' /\ server_inv w st' /\ quiescent w st' /\
    msgToAck st' = msgToAck st /\
    log st' = mid ++ log st /\
    existsb is_ack mid = false /\ existsb is_recv mid = false /\
    (quiescent w st -> st' = logged (Test (next w st) false) st).
Proof.
  revert st. induction fuel as [| fuel IH]; intros st Hinv Hlt; [lia |].
  pose proof Hinv as (Hwf & _).
  destruct (index_next st Hwf) as (b & Hb & Hidx).
  pose proof (next_eq st Hwf) as Hnext.
  cbn [fold_acks]. rewrite Hidx, result_bind_Ok. destruct b.
  - set (tested := logged (Test (next w st) true) st).
    assert (Hinvt : server_inv w tested) by (apply logged_inv; [exact Hinv | discriminate]).
    destruct (advance_inv tested (log st) Hinvt Hb eq_refl)
      as (st1 & Hadv & Hinv1 & Hm & Hcnt & _ & Hlog1).
    rewrite Hadv, result_bind_Ok.
    destruct (IH st1 Hinv1) as (st' & mid & Hrun & Hinv' & Hq & Hc & Hl & Hna & Hnr & _).
    { change (rounds_left tested) with (rounds_left st) in Hm. lia. }
    exists st', (mid ++ [Advance (lastAckSent st) (next w st); Test (next w st) true]).
    split; [exact Hrun |]. split; [exact Hinv' |]. split; [exact Hq |].
    split; [rewrite Hc, Hcnt; reflexivity |].
    split; [rewrite Hl, Hlog1, <- app_assoc; reflexivity |].
    split; [rewrite existsb_app, Hna; reflexivity |].
    split; [rewrite existsb_app, Hnr; reflexivity |].
    intros Hquiet. unfold quiescent in Hquiet.
    rewrite <- Hnext, Hb in Hquiet. discriminate.
  - exists (logged (Test (next w st) false) st), [Test (next w st) false].
    split; [reflexivity |].
    split; [apply logged_inv; [exact Hinv | discriminate] |].
    split; [unfold quiescent; simpl; rewrite <- Hnext; exact Hb |].
    repeat split; reflexivity.
Qed.

Lemma rounds_left_bound st : (rounds_left st < S (S (length (buffer st))))%nat.
Proof.
  unfold rounds_left. pose proof (count_true_le (buffer st)).
  destruct (buffer st !! Z.to_nat (lastAckSent st)) as [[] |]; lia.
Qed.

Lemma server_init_inv : server_inv w (server_init w) /\ quiescent w (server_init w).
Proof.
  pose proof server_init_wf as Hwf.
  destruct w_small as [Hpos _].
  split; [split; [exact Hwf | split] |].
  - intros i _ Hset. simpl in Hset.
    apply lookup_replicate in Hset as [Hset _]. discriminate.
  - intros [| e newer] a b older Heq; discriminate.
  - unfold quiescent. simpl. apply lookup_replicate. split; [reflexivity |].
    rewrite ring_eq.
    match goal with
    | |- context [?a mod ?b] => pose proof (Z.mod_pos_bound a b)
    end.
    lia.
Qed.

(** The write [buffer[message[0]] = true] goes through only inside the map. *)
Lemma accept_Ok_range seq st st1 :
  server_wf w st -> accept w seq st = Ok st1 ->
  0 < offset w st seq -> 0 <= seq < 2 * w + 1.
Proof.
  intros (Hlen & _) Hacc Hoff. unfold accept in Hacc.
  destruct (Z.ltb_spec 0 (offset w st seq)); [| lia].
  destruct (assign (buffer st) seq true) as [buf | f] eqn:Hassign;
    [| discriminate].
  apply assign_Ok in Hassign as [Hrange _]. lia.
Qed.

Lemma accept_ok seq st :
  server_inv w st ->
  (0 < offset w st seq -> 0 <= seq < 2 * w + 1) ->
  exists st1 mid,
    accept w seq st = Ok st1 /\ server_inv w st1 /\
    msgToAck st1 = msgToAck st /\
    log st1 = mid ++ Recv seq :: log st /\
    existsb is_ack mid = false /\ existsb is_recv mid = false /\
    (offset w st seq <= 0 -> st1 = logged (Recv seq) st).
Proof.
  intros Hinv Hin. pose proof Hinv as (Hwf & Hlog & Hadv).
  pose proof Hwf as (Hlen & Ha & Hl).
  unfold accept. destruct (Z.ltb_spec 0 (offset w st seq)) as [Hoff | Hoff].
  - specialize (Hin Hoff). unfold assign.
    destruct (Z.leb_spec 0 seq); [| lia].
    destruct (Z.ltb_spec seq (Z.of_nat (length (buffer st)))); [| lia].
    simpl. eexists. exists [Mark seq].
    split; [reflexivity |]. split; [| repeat split; simpl; try reflexivity; lia].
    split; [| split]; simpl.
    + unfold server_wf; simpl.
      split; [rewrite length_insert; exact Hlen | auto].
    + intros i Hi Hset. simpl in Hset.
      destruct (Z.eq_dec i seq) as [-> | Hne].
      * exists [], (log st). split; [reflexivity | intros c []].
      * rewrite list_lookup_insert_ne in Hset by lia.
        apply marked_since_cons; [| discriminate].
        apply marked_since_cons; [| discriminate].
        apply Hlog; assumption.
    + apply advances_ok_cons; [| discriminate].
      apply advances_ok_cons; [exact Hadv | discriminate].
  - eexists. exists []. split; [reflexivity |].
    split; [apply logged_inv; [exact Hinv | discriminate] |].
    repeat split; reflexivity.
Qed.

(** One received frame. *)
Lemma server_recv_ok seq st :
  server_inv w st -> quiescent w st ->
  (0 < offset w st seq -> 0 <= seq < 2 * w + 1) ->
  exists st' mid,
    server_recv w seq st = Ok st' /\
    server_inv w st' /\ quiescent w st' /\
    log st' =
      AckTo ((lastAckSent st' + 1) mod (2 * w + 1)) :: mid ++ Recv seq :: log st /\
    existsb is_ack mid = false /\ existsb is_recv mid = false /\
    msgToAck st' = (if offset w st seq <=? 0 then msgToAck st
                    else Int.add (msgToAck st) 1) /\
    (offset w st seq <= 0 ->
       mid = [Test ((lastAckSent st + 1) mod (2 * w + 1)) false] /\
       buffer st' = buffer st /\
       lastAckSent st' = lastAckSent st /\
       largestAccFrame st' = largestAccFrame st).
Proof.
  intros Hinv Hquiet Hin.
  destruct (accept_ok seq st Hinv Hin)
    as (st1 & mid1 & Hacc & Hinv1 & Hc1 & Hl1 & Hna1 & Hnr1 & Hsame).
  destruct (fold_acks_ok (S (S (length (buffer st1)))) st1 Hinv1
              (rounds_left_bound st1))
    as (st2 & mid2 & Hfold & Hinv2 & Hq2 & Hc2 & Hl2 & Hna2 & Hnr2 & Hstay).
  unfold server_recv. rewrite Hacc, result_bind_Ok, Hfold, result_bind_Ok.
  pose proof Hinv2 as (Hwf2 & Hlog2 & Hadv2).
  eexists. exists (mid2 ++ mid1).
  split; [reflexivity |]. simpl.
  split; [| split; [exact Hq2 | split; [| split; [| split; [| split]]]]].
  - change (server_inv w (logged (AckTo (next w st2))
              {| largestAccFrame := largestAccFrame st2;
                 lastAckSent := lastAckSent st2; buffer := buffer st2;
                 msgToAck := if offset w st seq <=? 0 then msgToAck st2
                             else Int.add (msgToAck st2) 1;
                 log := log st2 |})).
    apply logged_inv; [| discriminate]. exact Hinv2.
  - rewrite (next_eq st2 Hwf2), Hl2, Hl1, <- app_assoc. reflexivity.
  - rewrite existsb_app, Hna1, Hna2. reflexivity.
  - rewrite existsb_app, Hnr1, Hnr2. reflexivity.
  - rewrite Hc2, Hc1. reflexivity.
  - intros Hoff. specialize (Hsame Hoff). subst st1.
    assert (Hq1 : quiescent w (logged (Recv seq) st)) by exact Hquiet.
    pose proof Hinv as (Hwf & _).
    pose proof (Hstay Hq1) as Hst2.
    change (next w (logged (Recv seq) st)) with (next w st) in Hst2.
    rewrite (next_eq st Hwf) in Hst2.
    assert (Hm1 : mid1 = []).
    { apply (app_inv_tail (Recv seq :: log st)). symmetry. exact Hl1. }
    assert (Hm2 : mid2 = [Test ((lastAckSent st + 1) mod (2 * w + 1)) false]).
    { rewrite Hst2 in Hl2. apply (app_inv_tail (Recv seq :: log st)).
      symmetry. exact Hl2. }
    rewrite Hm1, Hm2, Hst2. auto.
Qed.

(** A received frame that does not fault the model is one of those
    [server_recv_ok] covers. *)
Lemma server_recv_Ok_range seq st st' :
  server_wf w st -> server_recv w seq st = Ok st' ->
  0 < offset w st seq -> 0 <= seq < 2 * w + 1.
Proof.
  intros Hwf Hrecv. unfold server_recv in Hrecv.
  destruct (accept w seq st) as [st1 | f] eqn:Hacc; [| discriminate].
  intros Hoff. apply (accept_Ok_range seq st st1 Hwf Hacc Hoff).
Qed.

Lemma server_run_inv max frames st st' :
  server_inv w st -> quiescent w st ->
  server_run max w frames st = Ok st' ->
  server_inv w st' /\ quiescent w st'.
Proof.
  revert st. induction frames as [| seq frames IH]; intros st Hinv Hq Hrun;
    simpl in Hrun.
  - injection Hrun as <-. auto.
  - destruct (msgToAck st <? max); [| injection Hrun as <-; auto].
    destruct (server_recv w seq st) as [st1 | f] eqn:Hrecv; [| discriminate].
    simpl in Hrun.
    pose proof Hinv as (Hwf & _).
    destruct (server_recv_ok seq st Hinv Hq
                (server_recv_Ok_range seq st st1 Hwf Hrecv))
      as (st1' & mid & Hrecv' & Hinv1 & Hq1 & _).
    rewrite Hrecv in Hrecv'. injection Hrecv' as <-.
    apply (IH st1 Hinv1 Hq1 Hrun).
Qed.

Lemma serverEarlyRetrans_inv max frames st :
  serverEarlyRetrans max w frames = Ok st ->
  server_inv w st /\ quiescent w st.
Proof.
  destruct server_init_inv as [Hinv Hq].
  apply (server_run_inv max frames _ st Hinv Hq).
Qed.

End WindowServerFacts.


Lemma small_window_two : small_window 2.
Proof. split; [lia | unfold Int.max_int; lia]. Qed.


(** C6: a frame outside the acceptance window.  In every state that
    [serverEarlyRetrans] reaches between two receives, a frame whose offset
    is not positive leaves the occupancy map, [lastAckSent] and
    [largestAccFrame] as they are, is not counted ([msgToAck] stays, so the
    [do] loop receives again), and is answered, after one look at the empty
    next entry, by exactly the acknowledgment
    [(lastAckSent + 1) mod (2 * windowSize + 1)]. *)
Theorem serverEarlyRetrans_discards_stale_frame (max w : Z) (frames : list Z)
    (st : WindowServer.server) (seq : Z) :
  small_window w ->
  WindowServer.serverEarlyRetrans max w frames = Ok st ->
  WindowServer.offset w st seq <= 0 ->
  exists st',
    WindowServer.server_recv w seq st = Ok st' /\
    WindowServer.buffer st' = WindowServer.buffer st /\
    WindowServer.lastAckSent st' = WindowServer.lastAckSent st /\
    WindowServer.largestAccFrame st' = WindowServer.largestAccFrame st /\
    WindowServer.msgToAck st' = WindowServer.msgToAck st /\
    WindowServer.log st' =
      WindowServer.AckTo ((WindowServer.lastAckSent st + 1) mod (2 * w + 1))
      :: WindowServer.Test ((WindowServer.lastAckSent st + 1) mod (2 * w + 1)) false
      :: WindowServer.Recv seq :: WindowServer.log st.
Proof.
  intros Hw Hrun Hoff.
  destruct (serverEarlyRetrans_inv w Hw max frames st Hrun) as [Hinv Hq].
  destruct (server_recv_ok w Hw seq st Hinv Hq) as
    (st' & mid & Hrecv & _ & _ & Hlog & _ & _ & Hcnt & Hsame); [lia |].
  destruct (Hsame Hoff) as (-> & Hb & Ha & Hl).
  exists st'. repeat (split; [assumption |]).
  split.
  - rewrite Hcnt. destruct (Z.leb_spec (WindowServer.offset w st seq) 0);
      [reflexivity | lia].
  - rewrite Hlog, Ha. reflexivity.
Qed.

Lemma serverEarlyRetrans_discards_stale_frame_witness :
  exists st',
    WindowServer.server_recv 2 0 WindowServer.after_frames_1_0 = Ok st' /\
    WindowServer.buffer st' = WindowServer.buffer WindowServer.after_frames_1_0 /\
    WindowServer.lastAckSent st' = WindowServer.lastAckSent WindowServer.after_frames_1_0 /\
    WindowServer.largestAccFrame st' =
      WindowServer.largestAccFrame WindowServer.after_frames_1_0 /\
    WindowServer.msgToAck st' = WindowServer.msgToAck WindowServer.after_frames_1_0 /\
    WindowServer.log st' =
      WindowServer.AckTo
        ((WindowServer.lastAckSent WindowServer.after_frames_1_0 + 1) mod (2 * 2 + 1))
      :: WindowServer.Test
           ((WindowServer.lastAckSent WindowServer.after_frames_1_0 + 1) mod (2 * 2 + 1))
           false
      :: WindowServer.Recv 0 :: WindowServer.log WindowServer.after_frames_1_0.
Proof.
  apply (serverEarlyRetrans_discards_stale_frame 5 2 [1; 0]
           WindowServer.after_frames_1_0 0 small_window_two eq_refl).
  vm_compute. discriminate.
Defined.

(** C10: the write into the occupancy map.  With [windowSize = 1] the map
    has 3 entries and, at the start, [largestAccFrame = 0].  For the received
    value 3 the offset is [1 - (3 + 0 - 3) % 3 = 1], positive, and the write
    [buffer[3] = true] is outside the map. *)
Theorem serverEarlyRetrans_write_outside_map :
  WindowServer.offset 1 (WindowServer.server_init 1) 3 = 1 /\
  length (WindowServer.buffer (WindowServer.server_init 1)) = 3%nat /\
  ~ (0 <= 3 < 2 * 1 + 1) /\
  WindowServer.serverEarlyRetrans 5 1 [3] = Fault (OutOfBounds 3 3).
Proof. vm_compute. repeat split. intros [_ H]. discriminate H. Qed.

(** ** Further facts *)

(** The retransmission loop: [k] rounds make [k] calls of [sendTo], each on
    an [int] read from [buffer] and used as the address, add one to
    [retrans] per round and leave the cursors and the buffer alone. *)
Lemma resend_counts k : forall i max w st st',
  WindowClient.resend k i max w st = Ok st' ->
  exists vs,
    length vs = k /\
    WindowClient.sent st' = map WindowClient.Address vs ++ WindowClient.sent st /\
    WindowClient.retrans st' = Nat.iter k (fun r => Int.add r 1) (WindowClient.retrans st) /\
    WindowClient.lastAckRec st' = WindowClient.lastAckRec st /\
    WindowClient.lastFrameSent st' = WindowClient.lastFrameSent st /\
    WindowClient.buffer st' = WindowClient.buffer st.
Proof.
  induction k as [| k IH]; intros i max w st st' Hrun; simpl in Hrun.
  - injection Hrun as <-. exists []. repeat split.
  - destruct (WindowClient.read (WindowClient.buffer st) _) as [v | f];
      [| discriminate].
    simpl in Hrun. apply IH in Hrun as (vs & Hlen & Hsent & Hret & Ha & Hf & Hb).
    simpl in *. exists (vs ++ [v]).
    split; [rewrite length_app; simpl; lia |].
    split; [rewrite Hsent, map_app, <- app_assoc; reflexivity |].
    split; [| auto].
    rewrite Hret. symmetry.
    exact (Nat.iter_succ_r k (fun r => Int.add r 1) (WindowClient.retrans st)).
Qed.

(** With a non-negative advance the trailing cursor stays in the ring. *)
Lemma lastAckRec_stays_in_ring w a adv :
  small_window w -> 0 <= a <= w -> 0 <= adv <= w ->
  0 <= Int.rem (Int.add a adv) (Int.add w 1) <= w.
Proof.
  intros [Hpos Hmax] Ha Hadv. unfold Int.max_int in Hmax.
  int_small. rewrite Int_rem_nonneg by lia.
  pose proof (Z.mod_pos_bound (a + adv) (w + 1)). lia.
Qed.

(** For a sequence number of the ring the offset of [serverEarlyRetrans] is
    the modular expression it is written as. *)
Lemma offset_in_ring w (st : WindowServer.server) seq :
  small_window w -> WindowServer.server_wf w st -> 0 <= seq < 2 * w + 1 ->
  WindowServer.offset w st seq =
    w - (2 * w + 1 + WindowServer.largestAccFrame st - seq) mod (2 * w + 1).
Proof.
  intros Hw (_ & _ & Hl) Hseq. pose proof Hw as [Hpos Hmax].
  unfold Int.max_int in Hmax. unfold WindowServer.offset.
  rewrite (ring_eq w Hw). int_small. rewrite Int_rem_nonneg by lia.
  pose proof (Z.mod_pos_bound
                (2 * w + 1 + WindowServer.largestAccFrame st - seq) (2 * w + 1)).
  int_small. reflexivity.
Qed.

(** ** Scenarios *)

(** Stop-and-wait, [max = 3]: the acknowledgment of message 1 is late by
    one timeout; the client resends message 1 once and returns 1. *)
Example stop_wait_one_retransmission :
  StopWait.returned
    (StopWait.clientStopWait 3
       [ {| now := 0; dgram := None |};        (* send message 0 *)
         {| now := 10; dgram := Some 0 |};     (* its acknowledgment *)
         {| now := 20; dgram := None |};       (* send message 1 *)
         {| now := 1000; dgram := None |};     (* nothing yet *)
         {| now := 1521; dgram := None |};     (* timeout: resend *)
         {| now := 1600; dgram := Some 1 |};   (* its acknowledgment *)
         {| now := 1610; dgram := None |};     (* send message 2 *)
         {| now := 1620; dgram := Some 0 |} ]) = Some 1.
Proof. reflexivity. Qed.

(** The receiver with [max = 2] takes the frames 0 and 1 and acknowledges
    the duplicates in between. *)
Example stop_wait_server_two_frames :
  StopWait.msgToAck (StopWait.serverReliable 2 [0; 0; 1; 1]) = 2 /\
  StopWait.acked (StopWait.serverReliable 2 [0; 0; 1; 1]) = [1; 0; 0].
Proof. split; reflexivity. Qed.

(** Sliding window, [windowSize = 2]: frame 1 arrives before frame 0 and is
    buffered; the acknowledgment stays at 0 until frame 0 arrives, and a
    second copy of frame 0 is answered by the same acknowledgment as the
    first. *)
Example window_server_out_of_order :
  WindowServer.log WindowServer.after_frames_1_0 =
    [ WindowServer.AckTo 2; WindowServer.Test 2 false;
      WindowServer.Advance 0 1; WindowServer.Test 1 true;
      WindowServer.Advance 4 0; WindowServer.Test 0 true;
      WindowServer.Mark 0; WindowServer.Recv 0;
      WindowServer.AckTo 0; WindowServer.Test 0 false;
      WindowServer.Mark 1; WindowServer.Recv 1 ].
Proof. reflexivity. Qed.

(** * Further properties of the code *)

(** ** [ackAdvance] on the acknowledgments of the ring *)

(** The acknowledgments [ackAdvance] accepts are exactly those that are 1
    to [windowSize] positions after [lastSeqRec] on the ring, and the value
    returned is that number of positions; the other positions of the ring
    ([lastSeqRec] itself and the [windowSize] positions behind it) give 0. *)
Theorem ackAdvance_accepts_window (w lastSeqRec k : Z) :
  small_window w ->
  0 <= lastSeqRec < 2 * w + 1 ->
  0 <= k < 2 * w + 1 ->
  ackAdvance (Some ((lastSeqRec + k) mod (2 * w + 1))) lastSeqRec w =
    if (1 <=? k) && (k <=? w) then k else 0.
Proof.
  intros Hw Hl Hk. pose proof Hw as [Hpos _].
  set (m := 2 * w + 1) in *.
  assert (Hr : 0 <= (lastSeqRec + k) mod m < m) by (apply Z.mod_pos_bound; lia).
  destruct (ackAdvance_in_ring w lastSeqRec _ Hw Hl Hr) as [-> _].
  fold m.
  rewrite !Zminus_mod_idemp_l.
  replace (lastSeqRec + k - (lastSeqRec + 1)) with (k - 1) by lia.
  replace (lastSeqRec + k - lastSeqRec) with k by lia.
  destruct (Z.leb_spec 1 k) as [H1 | H1]; simpl.
  - rewrite (Z.mod_small (k - 1)) by lia. rewrite (Z.mod_small k) by lia.
    destruct (Z.ltb_spec (k - 1) w), (Z.leb_spec k w); try lia; reflexivity.
  - assert (k = 0) by lia. subst k.
    assert (Hm : (0 - 1) mod m = 2 * w).
    { symmetry. apply Z.mod_unique_pos with (q := -1); lia. }
    rewrite Hm. destruct (Z.ltb_spec (2 * w) w); [lia | reflexivity].
Qed.

Lemma ackAdvance_accepts_window_witness :
  ackAdvance (Some ((3 + 2) mod (2 * 2 + 1))) 3 2 =
    if (1 <=? 2) && (2 <=? 2) then 2 else 0.
Proof.
  apply (ackAdvance_accepts_window 2 3 2); [exact small_window_two | lia | lia].
Defined.

(** ** [serverReliable] on every list of frames *)

Lemma serverReliable_fold_bits max frames : forall st,
  Forall (fun f => f = 0 \/ f = 1) frames ->
  0 <= StopWait.msgToAck st <= 2 ->
  0 <= StopWait.msgToAck
         (fold_left
            (fun st frame =>
               if StopWait.msgToAck st <? max
               then StopWait.server_recv frame st else st)
            frames st) <= 2.
Proof.
  induction frames as [| f frames IH]; intros st Hbits Hst; simpl; [exact Hst |].
  inversion Hbits as [| ? ? Hf Hrest]; subst.
  apply IH; [exact Hrest |].
  destruct (StopWait.msgToAck st <? max); [| exact Hst].
  unfold StopWait.server_recv. rewrite again_is_index_test.
  destruct (Z.eqb_spec f (StopWait.msgToAck st)) as [E | E]; simpl; [| exact Hst].
  rewrite Int_add_small by int_range. lia.
Qed.

(** When every frame carries a bit (as the frames of [clientStopWait] do),
    the expected index of [serverReliable] never passes 2; with [max] of 3
    or more the function therefore never leaves its loop. *)
Theorem serverReliable_bit_frames_stop_at_two (max : Z) (frames : list Z) :
  Forall (fun f => f = 0 \/ f = 1) frames ->
  0 <= StopWait.msgToAck (StopWait.serverReliable max frames) <= 2 /\
  (3 <= max ->
   (StopWait.msgToAck (StopWait.serverReliable max frames) <? max) = true).
Proof.
  intros Hbits.
  pose proof (serverReliable_fold_bits max frames StopWait.server_init Hbits) as H.
  fold (StopWait.serverReliable max frames) in H.
  assert (H0 : 0 <= StopWait.msgToAck StopWait.server_init <= 2) by (simpl; lia).
  specialize (H H0). split; [exact H |].
  intros Hmax. apply Z.ltb_lt. lia.
Qed.

Lemma serverReliable_bit_frames_stop_at_two_witness :
  0 <= StopWait.msgToAck (StopWait.serverReliable 5 [0; 1; 0; 1; 0; 1]) <= 2 /\
  (3 <= 5 ->
   (StopWait.msgToAck (StopWait.serverReliable 5 [0; 1; 0; 1; 0; 1]) <? 5) = true).
Proof.
  apply (serverReliable_bit_frames_stop_at_two 5 [0; 1; 0; 1; 0; 1]).
  repeat (constructor; [lia |]). constructor.
Defined.

Lemma serverReliable_fold_echo max frames : forall st,
  exists k,
    (k <= length frames)%nat /\
    StopWait.acked
      (fold_left
         (fun st frame =>
            if StopWait.msgToAck st <? max
            then StopWait.server_recv frame st else st)
         frames st)
    = rev (firstn k frames) ++ StopWait.acked st /\
    ((StopWait.msgToAck
        (fold_left
           (fun st frame =>
              if StopWait.msgToAck st <? max
              then StopWait.server_recv frame st else st)
           frames st) <? max) = true -> k = length frames).
Proof.
  induction frames as [| f frames IH]; intros st; simpl.
  - exists O. repeat split; reflexivity || lia.
  - destruct (StopWait.msgToAck st <? max) eqn:Hrun.
    + destruct (IH (StopWait.server_recv f st)) as (k & Hk & Hacked & Hall).
      exists (S k). split; [lia |]. split.
      * rewrite Hacked. simpl. rewrite <- app_assoc.
        unfold StopWait.server_recv.
        destruct (StopWait.again f (StopWait.msgToAck st)); reflexivity.
      * intros H. rewrite (Hall H). reflexivity.
    + assert (Hstay : forall l,
                fold_left
                  (fun st frame =>
                     if StopWait.msgToAck st <? max
                     then StopWait.server_recv frame st else st) l st = st).
      { induction l as [| x l IHl]; simpl; [reflexivity |].
        rewrite Hrun. exact IHl. }
      rewrite Hstay. exists O. split; [lia |]. split; [reflexivity |].
      intros H. rewrite Hrun in H. discriminate.
Qed.

(** [serverReliable] answers every frame it receives with that frame's own
    sequence field, in order: the acknowledgments sent are the frames
    received so far, and while the function has not returned it has
    answered all the frames that arrived. *)
Theorem serverReliable_echoes_frames (max : Z) (frames : list Z) :
  exists k,
    (k <= length frames)%nat /\
    rev (StopWait.acked (StopWait.serverReliable max frames)) = firstn k frames /\
    ((StopWait.msgToAck (StopWait.serverReliable max frames) <? max) = true ->
     k = length frames).
Proof.
  destruct (serverReliable_fold_echo max frames StopWait.server_init)
    as (k & Hk & Hacked & Hall).
  exists k. split; [exact Hk |]. split; [| exact Hall].
  unfold StopWait.serverReliable. rewrite Hacked. simpl.
  rewrite app_nil_r. apply rev_involutive.
Qed.

(** ** [clientStopWait] on every script *)

Lemma clientStopWait_run_returned max script : forall st,
  StopWait.at_pc st = StopWait.AtReturn ->
  fold_left (fun st o => StopWait.client_step max o st) script st = st.
Proof.
  induction script as [| o script IH]; intros st Hpc; simpl; [reflexivity |].
  unfold StopWait.client_step at 2. rewrite Hpc. apply IH, Hpc.
Qed.

(** With nothing to send ([max <= 0]) [clientStopWait] returns 0 at once,
    whatever the environment shows, and sends no frame. *)
Theorem clientStopWait_nothing_to_send (max : Z) (script : list obs) :
  max <= 0 ->
  StopWait.returned (StopWait.clientStopWait max script) = Some 0 /\
  StopWait.sent (StopWait.clientStopWait max script) = [].
Proof.
  intros Hmax. unfold StopWait.clientStopWait.
  assert (Hhead : StopWait.at_pc (StopWait.for_head max StopWait.client_init)
                  = StopWait.AtReturn).
  { unfold StopWait.for_head. simpl.
    destruct (Z.ltb_spec 0 max); [lia | reflexivity]. }
  rewrite (clientStopWait_run_returned max script _ Hhead).
  unfold StopWait.returned. rewrite Hhead.
  unfold StopWait.for_head. simpl.
  destruct (Z.ltb_spec 0 max); [lia | split; reflexivity].
Qed.

Lemma clientStopWait_nothing_to_send_witness :
  StopWait.returned
    (StopWait.clientStopWait 0 [ {| now := 5; dgram := Some 1 |} ]) = Some 0 /\
  StopWait.sent
    (StopWait.clientStopWait 0 [ {| now := 5; dgram := Some 1 |} ]) = [].
Proof.
  apply (clientStopWait_nothing_to_send 0 [ {| now := 5; dgram := Some 1 |} ]).
  lia.
Defined.

Lemma Int_wrap_add_l a b : Int.wrap (Int.wrap a + b) = Int.wrap (a + b).
Proof.
  unfold Int.wrap. f_equal.
  replace ((a + 2147483648) mod 4294967296 - 2147483648 + b + 2147483648)
    with ((a + 2147483648) mod 4294967296 + b) by lia.
  rewrite Zplus_mod_idemp_l. f_equal. lia.
Qed.

Lemma Int_wrap_wrap a : Int.wrap (Int.wrap a) = Int.wrap a.
Proof. apply Int_wrap_small, Int_wrap_in_range. Qed.

Section StopWaitAccounting.

Import StopWait.

Variable max : Z.
Hypothesis max_int_range : Int.in_range max.

Lemma for_head_accounted st :
  0 <= msgNum st ->
  (max <= msgNum st -> msgNum st = Z.max 0 max) ->
  retrans st = Int.wrap (Z.of_nat (length (sent st)) - msgNum st) ->
  accounted max (for_head max st).
Proof.
  intros Hn Hend Hret. unfold accounted, for_head, in_flight.
  destruct (Z.ltb_spec (msgNum st) max); simpl.
  - split; [rewrite Hret; f_equal; lia | discriminate].
  - split; [rewrite Hret; f_equal; lia | intros _; apply Hend; lia].
Qed.

Lemma client_step_accounted o st :
  bit_ack o -> client_inv max st -> accounted max st ->
  accounted max (client_step max o st).
Proof.
  intros Hbit [Hn Hrun] [Hret Hend]. unfold client_step.
  unfold in_flight in Hret.
  destruct (at_pc st) eqn:Hpc.
  - (* AtSend *)
    unfold accounted, in_flight; simpl.
    split; [| discriminate]. rewrite Hret. f_equal. lia.
  - (* AtPoll *)
    destruct Hrun as [Hlt Hm0]; [discriminate |]. clear Hend.
    destruct (dgram o) as [ack |] eqn:Hack.
    + assert (Hn2 : msgNum st mod 2 = 0 \/ msgNum st mod 2 = 1)
        by (pose proof (Z.mod_pos_bound (msgNum st) 2); lia).
      assert (Hab : ack = 0 \/ ack = 1).
      { unfold bit_ack in Hbit. rewrite Hack in Hbit.
        destruct Hbit as [H | [H | H]]; [discriminate | left | right];
          congruence. }
      destruct (Z.eqb_spec ack (message0 st)) as [E | E]; simpl.
      * apply for_head_accounted; simpl.
        -- rewrite Int_add_small by int_range. lia.
        -- rewrite Int_add_small by int_range. lia.
        -- rewrite (Int_add_small (msgNum st) 1) by int_range.
           rewrite E. unfold Int.bxor. rewrite Z.lxor_nilpotent.
           unfold Int.add. rewrite Z.add_0_r, Hret, Int_wrap_wrap.
           f_equal. lia.
      * unfold accounted, in_flight; simpl. split; [| discriminate].
        assert (Hx : Int.bxor ack (message0 st) = 1).
        { rewrite Hm0 in *. unfold Int.bxor.
          destruct Hab as [-> | ->], Hn2 as [Hk | Hk]; rewrite Hk in *;
            try reflexivity; congruence. }
        rewrite Hx. unfold Int.add. rewrite Hret, Int_wrap_add_l.
        f_equal. lia.
    + destruct (MAX_TIME <? Timer.lap (timeout st) (now o)).
      * unfold accounted, in_flight; simpl. split; [| discriminate].
        unfold Int.add. rewrite Hret, Int_wrap_add_l. f_equal. lia.
      * unfold accounted, in_flight. rewrite Hpc. split; [exact Hret | discriminate].
  - (* AtReturn *)
    unfold accounted, in_flight. rewrite Hpc. split; [exact Hret | exact Hend].
Qed.

Lemma clientStopWait_accounted script :
  Forall bit_ack script -> accounted max (clientStopWait max script).
Proof.
  intros Hbits. unfold clientStopWait.
  assert (Hinv0 : client_inv max (for_head max client_init))
    by (apply for_head_inv; simpl; lia).
  assert (Hacc0 : accounted max (for_head max client_init)).
  { apply for_head_accounted; simpl; [lia | lia | reflexivity]. }
  revert Hinv0 Hacc0. generalize (for_head max client_init).
  induction Hbits as [| o script Ho Hrest IH]; intros st Hinv Hacc; simpl.
  - exact Hacc.
  - apply IH.
    + apply client_step_inv; assumption.
    + apply client_step_accounted; assumption.
Qed.

End StopWaitAccounting.

(** When every acknowledgment read is a bit, the counter of
    [clientStopWait] is, at every moment, the number of [sendTo] calls made
    beyond one per message started (as an [int]), and the value returned is
    the number of [sendTo] calls minus [max]. *)
Theorem clientStopWait_returns_extra_sends (max : Z) (script : list obs) :
  Int.in_range max ->
  Forall StopWait.bit_ack script ->
  let st := StopWait.clientStopWait max script in
  StopWait.retrans st =
    Int.wrap (Z.of_nat (length (StopWait.sent st)) - StopWait.msgNum st
              - StopWait.in_flight st) /\
  forall r, StopWait.returned st = Some r ->
    r = Int.wrap (Z.of_nat (length (StopWait.sent st)) - Z.max 0 max).
Proof.
  intros Hmax Hbits st.
  destruct (clientStopWait_accounted max Hmax script Hbits) as [Hret Hend].
  fold st in Hret, Hend. split; [exact Hret |].
  intros r Hr. unfold StopWait.returned in Hr.
  unfold StopWait.in_flight in Hret.
  destruct (StopWait.at_pc st) eqn:Hpc; try discriminate.
  injection Hr as <-. rewrite Hret, (Hend eq_refl). f_equal. lia.
Qed.

Lemma clientStopWait_returns_extra_sends_witness :
  StopWait.retrans
    (StopWait.clientStopWait 2
       [ {| now := 0; dgram := None |}; {| now := 1600; dgram := None |};
         {| now := 1700; dgram := Some 0 |}; {| now := 1800; dgram := None |};
         {| now := 1900; dgram := Some 0 |}; {| now := 2000; dgram := None |};
         {| now := 2100; dgram := Some 1 |} ])
  = Int.wrap (4 - 2 - 0).
Proof.
  exact (proj1 (clientStopWait_returns_extra_sends 2
           [ {| now := 0; dgram := None |}; {| now := 1600; dgram := None |};
             {| now := 1700; dgram := Some 0 |}; {| now := 1800; dgram := None |};
             {| now := 1900; dgram := Some 0 |}; {| now := 2000; dgram := None |};
             {| now := 2100; dgram := Some 1 |} ]
           ltac:(unfold Int.in_range, Int.min_int, Int.max_int; lia)
           ltac:(unfold StopWait.bit_ack;
                 repeat (constructor; [simpl; auto |]); constructor))).
Defined.

(** ** Stop-and-wait without loss *)

Section StopWaitLossless.

Import StopWait.

Variable max : Z.
Hypothesis max_int_range : Int.in_range max.

Lemma lossless_client n : forall k s st,
  at_message max k s st -> 0 <= k -> k + Z.of_nat n <= max ->
  at_message max (k + Z.of_nat n) (rev (bits n k) ++ s)
    (fold_left (fun st o => client_step max o st) (lossless n k) st).
Proof.
  induction n as [| n IH]; intros k s st Hst Hk Hmax.
  - simpl. rewrite Z.add_0_r. exact Hst.
  - destruct Hst as (Hnum & Hret & Hsent & Hpc & Hm0).
    assert (Hlt : k < max) by lia. specialize (Hm0 Hlt).
    destruct (Z.ltb_spec k max); [| lia].
    cbn [lossless fold_left bits].
    replace (k + Z.of_nat (S n)) with (k + 1 + Z.of_nat n) by lia.
    replace (rev (k mod 2 :: bits n (k + 1)) ++ s)
      with (rev (bits n (k + 1)) ++ (k mod 2 :: s))
      by (simpl; rewrite <- app_assoc; reflexivity).
    apply IH; [| lia | lia].
    unfold client_step at 2. rewrite Hpc.
    unfold client_step. cbn [at_pc dgram message0 msgNum retrans sent seqNum timeout].
    rewrite Hm0, Z.eqb_refl. cbn [negb].
    unfold for_head. cbn [at_pc dgram message0 msgNum retrans sent seqNum timeout].
    rewrite Hnum, Hret, Hsent.
    rewrite (Int_add_small k 1) by int_range.
    unfold Int.bxor. rewrite Z.lxor_nilpotent.
    unfold at_message.
    destruct (Z.ltb_spec (k + 1) max); cbn [at_pc message0 msgNum retrans sent];
      repeat split; try reflexivity; try lia.
    intros _. apply land_one_mod_two.
Qed.

Lemma lossless_server n : forall k st,
  msgToAck st = Z.min k 2 -> 0 <= k -> k + Z.of_nat n <= max ->
  let st' :=
    fold_left
      (fun st frame => if msgToAck st <? max then server_recv frame st else st)
      (bits n k) st in
  msgToAck st' = Z.min (k + Z.of_nat n) 2 /\
  acked st' = rev (bits n k) ++ acked st.
Proof.
  induction n as [| n IH]; intros k st Hst Hk Hmax; cbn [bits fold_left].
  - rewrite Z.add_0_r. auto.
  - destruct (Z.ltb_spec (msgToAck st) max); [| lia].
    assert (Hbit : 0 <= k mod 2 < 2) by (apply Z.mod_pos_bound; lia).
    assert (Hnext : msgToAck (server_recv (k mod 2) st) = Z.min (k + 1) 2 /\
                    acked (server_recv (k mod 2) st) = k mod 2 :: acked st).
    { unfold server_recv. rewrite again_is_index_test.
      destruct (Z.eqb_spec (k mod 2) (msgToAck st)) as [E | E]; simpl.
      - split; [| reflexivity]. rewrite Int_add_small by int_range.
        assert (k = 0 \/ k = 1 \/ 2 <= k) as [-> | [-> | Hk2]] by lia;
          try change (0 mod 2) with 0 in *; try change (1 mod 2) with 1 in *; lia.
      - split; [| reflexivity].
        assert (k = 0 \/ k = 1 \/ 2 <= k) as [-> | [-> | Hk2]] by lia;
          try change (0 mod 2) with 0 in *; try change (1 mod 2) with 1 in *; lia. }
    destruct Hnext as [Hn1 Ha1].
    replace (k + Z.of_nat (S n)) with (k + 1 + Z.of_nat n) by lia.
    destruct (IH (k + 1) (server_recv (k mod 2) st) Hn1) as [Hn2 Ha2]; [lia | lia |].
    split; [exact Hn2 |].
    rewrite Ha2, Ha1. simpl. rewrite <- app_assoc. reflexivity.
Qed.

End StopWaitLossless.

(** Stop-and-wait over a transport that loses and delays nothing.  When
    every frame is answered at the first poll by the acknowledgment
    [serverReliable] sends for it, [clientStopWait] sends the [max] frames
    with bits 0, 1, 0, ... once each and returns 0; [serverReliable]
    acknowledges each of them, but its expected index ends at [max] only for
    [max <= 2] and at 2 otherwise. *)
Theorem stop_and_wait_lossless (max : Z) :
  Int.in_range max -> 0 <= max ->
  let n := Z.to_nat max in
  let c := StopWait.clientStopWait max (StopWait.lossless n 0) in
  let s := StopWait.serverReliable max (rev (StopWait.sent c)) in
  StopWait.returned c = Some 0 /\
  rev (StopWait.sent c) = StopWait.bits n 0 /\
  rev (StopWait.acked s) = rev (StopWait.sent c) /\
  omap dgram (StopWait.lossless n 0) = rev (StopWait.acked s) /\
  StopWait.msgToAck s = Z.min max 2.
Proof.
  intros Hrange Hmax n c s.
  assert (Hinit : StopWait.at_message max 0 []
                    (StopWait.for_head max StopWait.client_init)).
  { unfold StopWait.at_message, StopWait.for_head. simpl.
    destruct (Z.ltb_spec 0 max); simpl; repeat split; try reflexivity; lia. }
  pose proof (lossless_client max Hrange n 0 [] _ Hinit) as Hc.
  fold (StopWait.clientStopWait max (StopWait.lossless n 0)) in Hc. fold c in Hc.
  destruct Hc as (Hnum & Hret & Hsent & Hpc & _); [lia | lia |].
  replace (0 + Z.of_nat n) with max in * by lia.
  rewrite Z.ltb_irrefl in Hpc. rewrite app_nil_r in Hsent.
  assert (Hframes : rev (StopWait.sent c) = StopWait.bits n 0)
    by (rewrite Hsent; apply rev_involutive).
  pose proof (lossless_server max n 0 StopWait.server_init) as Hs.
  simpl in Hs. destruct Hs as [Hidx Hacked]; [reflexivity | lia | lia |].
  replace (0 + Z.of_nat n) with max in * by lia.
  assert (Hs_eq : s = fold_left
            (fun st frame =>
               if StopWait.msgToAck st <? max
               then StopWait.server_recv frame st else st)
            (StopWait.bits n 0) StopWait.server_init).
  { unfold s, StopWait.serverReliable. rewrite Hframes. reflexivity. }
  rewrite <- Hs_eq in Hidx, Hacked. rewrite app_nil_r in Hacked.
  split; [unfold StopWait.returned; rewrite Hpc, Hret; reflexivity |].
  split; [exact Hframes |].
  assert (Hacks : rev (StopWait.acked s) = StopWait.bits n 0)
    by (rewrite Hacked; apply rev_involutive).
  split; [rewrite Hacks, Hframes; reflexivity |].
  split; [| exact Hidx].
  rewrite Hacks. clear. generalize 0. induction n as [| n IH]; intros k.
  - reflexivity.
  - simpl. f_equal. apply IH.
Qed.

Lemma stop_and_wait_lossless_witness :
  StopWait.returned
    (StopWait.clientStopWait 4 (StopWait.lossless (Z.to_nat 4) 0)) = Some 0 /\
  rev (StopWait.sent
         (StopWait.clientStopWait 4 (StopWait.lossless (Z.to_nat 4) 0)))
  = StopWait.bits (Z.to_nat 4) 0 /\
  rev (StopWait.acked
         (StopWait.serverReliable 4
            (rev (StopWait.sent
                    (StopWait.clientStopWait 4
                       (StopWait.lossless (Z.to_nat 4) 0))))))
  = rev (StopWait.sent
           (StopWait.clientStopWait 4 (StopWait.lossless (Z.to_nat 4) 0))) /\
  omap dgram (StopWait.lossless (Z.to_nat 4) 0)
  = rev (StopWait.acked
           (StopWait.serverReliable 4
              (rev (StopWait.sent
                      (StopWait.clientStopWait 4
                         (StopWait.lossless (Z.to_nat 4) 0)))))) /\
  StopWait.msgToAck
    (StopWait.serverReliable 4
       (rev (StopWait.sent
               (StopWait.clientStopWait 4 (StopWait.lossless (Z.to_nat 4) 0)))))
  = Z.min 4 2.
Proof.
  apply (stop_and_wait_lossless 4).
  - unfold Int.in_range, Int.min_int, Int.max_int. lia.
  - lia.
Defined.

(** ** [serverEarlyRetrans] on every list of frames *)

Section WindowServerRuns.

Import WindowServer.

Variable w : Z.
Hypothesis w_small : small_window w.

Lemma advance_Ok st st' :
  advance w st = Ok st' ->
  0 <= lastAckSent st < Z.of_nat (length (buffer st)) /\
  st' = {| largestAccFrame := Int.rem (Int.add (largestAccFrame st) 1) (seqRange w);
           lastAckSent := next w st;
           buffer := <[Z.to_nat (lastAckSent st) := false]> (buffer st);
           msgToAck := msgToAck st;
           log := Advance (lastAckSent st) (next w st) :: log st |}.
Proof.
  unfold advance. intros H.
  destruct (assign (buffer st) (lastAckSent st) false) as [buf | f] eqn:E;
    [| discriminate].
  apply assign_Ok in E as [Hr ->]. injection H as <-. auto.
Qed.

(** What the inner loop keeps: a property kept by its test and by its
    body. *)
Lemma fold_acks_preserves (P : server -> Prop) :
  (forall st b, P st -> P (logged (Test (next w st) b) st)) ->
  (forall st st', P st -> buffer st !! Z.to_nat (next w st) = Some true ->
                  advance w st = Ok st' -> P st') ->
  forall fuel st st', P st -> fold_acks fuel w st = Ok st' -> P st'.
Proof.
  intros Htest Hbody. induction fuel as [| fuel IH]; intros st st' Hst Hrun;
    [discriminate |].
  cbn [fold_acks] in Hrun.
  destruct (index (buffer st) (next w st)) as [b | f] eqn:Hidx; [| discriminate].
  rewrite result_bind_Ok in Hrun. apply index_Ok in Hidx as [_ Hb].
  destruct b.
  - destruct (advance w (logged (Test (next w st) true) st)) as [st1 | f] eqn:Hadv;
      [| discriminate].
    rewrite result_bind_Ok in Hrun.
    apply (IH st1 st'); [| exact Hrun].
    apply (Hbody (logged (Test (next w st) true) st) st1);
      [apply Htest, Hst | exact Hb | exact Hadv].
  - injection Hrun as <-. apply Htest, Hst.
Qed.

Lemma ring_shift (a i d : Z) :
  0 <= d < 2 * w + 1 -> (i - a) mod (2 * w + 1) = d -> 1 <= d ->
  (i - (a + 1) mod (2 * w + 1)) mod (2 * w + 1) = d - 1.
Proof.
  intros Hd Heq H1. destruct w_small as [Hpos _].
  rewrite Zminus_mod_idemp_r. symmetry.
  apply Z.mod_unique_pos with (q := (i - a) / (2 * w + 1)); [lia |].
  pose proof (Z.div_mod (i - a) (2 * w + 1)). lia.
Qed.

Lemma ring_distance_zero (a i : Z) :
  0 <= a < 2 * w + 1 -> 0 <= i < 2 * w + 1 ->
  (i - a) mod (2 * w + 1) = 0 -> i = a.
Proof.
  intros Ha Hi H0.
  destruct (Z_le_gt_dec a i).
  - rewrite Z.mod_small in H0 by lia. lia.
  - replace (i - a) with (i - a + 2 * w + 1 + (-1) * (2 * w + 1)) in H0 by lia.
    rewrite Z_mod_plus_full, Z.mod_small in H0 by lia. lia.
Qed.

Lemma advance_window st st' :
  server_wf w st /\ window_inv w st ->
  advance w st = Ok st' ->
  server_wf w st' /\ window_inv w st'.
Proof.
  intros [Hwf [Hedge Hset]] Hadv.
  pose proof (next_eq w w_small st Hwf) as Hnext.
  pose proof (next_range w w_small st Hwf) as [Hn Hne].
  pose proof Hwf as (Hlen & Ha & Hl).
  destruct w_small as [Hpos Hmax]. unfold Int.max_int in Hmax.
  apply advance_Ok in Hadv as [_ ->].
  assert (Hlarge : Int.rem (Int.add (largestAccFrame st) 1) (seqRange w)
                   = (largestAccFrame st + 1) mod (2 * w + 1)).
  { rewrite (ring_eq w w_small). int_small. apply Int_rem_nonneg; lia. }
  split; [| split]; simpl.
  - unfold server_wf; simpl. rewrite length_insert, Hlarge.
    split; [exact Hlen |]. split; [lia |]. apply Z.mod_pos_bound. lia.
  - rewrite Hlarge, Hnext, Hedge.
    rewrite Zplus_mod_idemp_l, Zplus_mod_idemp_l. f_equal. lia.
  - intros i Hi Htrue.
    assert (Hia : i <> lastAckSent st).
    { intros ->. rewrite list_lookup_insert_eq in Htrue by lia. discriminate. }
    rewrite list_lookup_insert_ne in Htrue by lia.
    pose proof (Hset i Hi Htrue) as Hd.
    pose proof (Z.mod_pos_bound (i - lastAckSent st) (2 * w + 1)) as Hb.
    assert (Hd1 : 1 <= (i - lastAckSent st) mod (2 * w + 1)).
    { destruct (Z.eq_dec ((i - lastAckSent st) mod (2 * w + 1)) 0) as [E | E];
        [| lia].
      exfalso. apply Hia. apply ring_distance_zero; assumption. }
    rewrite Hnext.
    rewrite (ring_shift (lastAckSent st) i _ (Hb ltac:(lia)) eq_refl Hd1). lia.
Qed.

Lemma accept_window seq st st' :
  server_wf w st /\ window_inv w st ->
  accept w seq st = Ok st' ->
  server_wf w st' /\ window_inv w st'.
Proof.
  intros [Hwf [Hedge Hset]] Hacc.
  pose proof Hwf as (Hlen & Ha & Hl).
  pose proof (accept_Ok_range w seq st st' Hwf Hacc) as Hrange.
  destruct w_small as [Hpos Hmax]. unfold Int.max_int in Hmax.
  unfold accept in Hacc.
  destruct (Z.ltb_spec 0 (offset w st seq)) as [Hoff | Hoff].
  - specialize (Hrange Hoff).
    destruct (assign (buffer st) seq true) as [buf | f] eqn:E; [| discriminate].
    apply assign_Ok in E as [_ ->]. injection Hacc as <-.
    split; [| split]; simpl.
    + unfold server_wf; simpl. rewrite length_insert. auto.
    + exact Hedge.
    + intros i Hi Htrue.
      destruct (Z.eq_dec i seq) as [-> | Hne].
      * rewrite (offset_in_ring w st seq w_small Hwf Hrange) in Hoff.
        rewrite Hedge in Hoff.
        set (m := 2 * w + 1) in *.
        set (d := (m + (lastAckSent st + w) mod m - seq) mod m) in *.
        assert (Hd : 0 <= d < m) by (apply Z.mod_pos_bound; lia).
        assert (Hdist : (seq - lastAckSent st) mod m = w - d).
        { symmetry.
          apply Z.mod_unique_pos
            with (q := 1 - (lastAckSent st + w) / m
                       - (m + (lastAckSent st + w) mod m - seq) / m);
            [lia |].
          pose proof (Z.div_mod (lastAckSent st + w) m).
          pose proof (Z.div_mod (m + (lastAckSent st + w) mod m - seq) m).
          fold d in H0. nia. }
        rewrite Hdist. lia.
      * rewrite list_lookup_insert_ne in Htrue by lia. apply Hset; assumption.
  - injection Hacc as <-. split; [exact Hwf | split; assumption].
Qed.

Lemma server_recv_window seq st st' :
  server_wf w st /\ window_inv w st ->
  server_recv w seq st = Ok st' ->
  server_wf w st' /\ window_inv w st'.
Proof.
  intros Hst Hrecv. unfold server_recv in Hrecv.
  destruct (accept w seq st) as [st1 | f] eqn:Hacc; [| discriminate].
  rewrite result_bind_Ok in Hrecv.
  destruct (fold_acks (S (S (length (buffer st1)))) w st1) as [st2 | f] eqn:Hfold;
    [| discriminate].
  rewrite result_bind_Ok in Hrecv. injection Hrecv as <-.
  assert (H2 : server_wf w st2 /\ window_inv w st2).
  { apply (fold_acks_preserves (fun s => server_wf w s /\ window_inv w s))
      with (fuel := S (S (length (buffer st1)))) (st := st1).
    - intros s b Hs. exact Hs.
    - intros s s' Hs _ Hadv. apply (advance_window s s' Hs Hadv).
    - apply (accept_window seq st st1 Hst Hacc).
    - exact Hfold. }
  exact H2.
Qed.

Lemma server_run_window max frames : forall st st',
  server_wf w st /\ window_inv w st ->
  server_run max w frames st = Ok st' ->
  server_wf w st' /\ window_inv w st'.
Proof.
  induction frames as [| seq frames IH]; intros st st' Hst Hrun; simpl in Hrun.
  - injection Hrun as <-. exact Hst.
  - destruct (msgToAck st <? max); [| injection Hrun as <-; exact Hst].
    destruct (server_recv w seq st) as [st1 | f] eqn:Hrecv; [| discriminate].
    rewrite result_bind_Ok in Hrun.
    apply (IH st1 st'); [| exact Hrun].
    apply (server_recv_window seq st st1 Hst Hrecv).
Qed.

Lemma server_init_window : window_inv w (server_init w).
Proof.
  destruct w_small as [Hpos Hmax]. unfold Int.max_int in Hmax.
  split; simpl.
  - rewrite (ring_eq w w_small). int_small.
    replace (2 * w + 1 - 1 + w) with (w - 1 + 1 * (2 * w + 1)) by lia.
    rewrite Z_mod_plus_full, Z.mod_small by lia. reflexivity.
  - intros i _ Htrue. apply lookup_replicate in Htrue as [Htrue _]. discriminate.
Qed.

End WindowServerRuns.

(** The leading edge of the acceptance window follows the cumulative
    pointer: in every state [serverEarlyRetrans] reaches between two
    receives, [largestAccFrame] is [windowSize] positions after
    [lastAckSent] on the ring. *)
Theorem serverEarlyRetrans_window_edge (max w : Z) (frames : list Z)
    (st : WindowServer.server) :
  small_window w ->
  WindowServer.serverEarlyRetrans max w frames = Ok st ->
  WindowServer.largestAccFrame st
  = (WindowServer.lastAckSent st + w) mod (2 * w + 1).
Proof.
  intros Hw Hrun.
  destruct (server_run_window w Hw max frames (WindowServer.server_init w) st)
    as [_ [Hedge _]]; [| exact Hrun | exact Hedge].
  split; [apply server_init_wf, Hw | apply server_init_window, Hw].
Qed.

Lemma serverEarlyRetrans_window_edge_witness :
  WindowServer.largestAccFrame WindowServer.after_frames_1_0
  = (WindowServer.lastAckSent WindowServer.after_frames_1_0 + 2) mod (2 * 2 + 1).
Proof.
  apply (serverEarlyRetrans_window_edge 5 2 [1; 0] WindowServer.after_frames_1_0
           small_window_two eq_refl).
Defined.

(** Only frames of the window are buffered: in every state
    [serverEarlyRetrans] reaches between two receives, an entry of the
    occupancy map that is set is the entry at [lastAckSent] or one of the
    [windowSize] entries after it on the ring; the [windowSize] entries
    behind [lastAckSent] are clear. *)
Theorem serverEarlyRetrans_buffers_within_window (max w : Z) (frames : list Z)
    (st : WindowServer.server) (i : Z) :
  small_window w ->
  WindowServer.serverEarlyRetrans max w frames = Ok st ->
  0 <= i < 2 * w + 1 ->
  WindowServer.buffer st !! Z.to_nat i = Some true ->
  (i - WindowServer.lastAckSent st) mod (2 * w + 1) <= w.
Proof.
  intros Hw Hrun Hi Hset.
  destruct (server_run_window w Hw max frames (WindowServer.server_init w) st)
    as [_ [_ Hwin]]; [| exact Hrun | apply Hwin; assumption].
  split; [apply server_init_wf, Hw | apply server_init_window, Hw].
Qed.

Lemma serverEarlyRetrans_buffers_within_window_witness :
  (1 - WindowServer.lastAckSent WindowServer.after_frames_1_0) mod (2 * 2 + 1) <= 2.
Proof.
  apply (serverEarlyRetrans_buffers_within_window 5 2 [1; 0]
           WindowServer.after_frames_1_0 1 small_window_two eq_refl).
  - lia.
  - reflexivity.
Defined.

(** ** One frame received by [serverEarlyRetrans] *)

Section WindowServerFolding.

Import WindowServer.

Variable w : Z.
Hypothesis w_small : small_window w.

Lemma mod_eq_by (a m v : Z) :
  0 <= v < m -> (exists q, a = m * q + v) -> a mod m = v.
Proof.
  intros Hv [q ->]. symmetry. apply (Z.mod_unique_pos _ m q v); [exact Hv | reflexivity].
Qed.

(** A position [d] steps after [a] on the ring, for [d] below the size of
    the ring, is at distance [d] from [a]. *)
Lemma ring_distance (a d : Z) :
  0 <= d < 2 * w + 1 ->
  ((a + d) mod (2 * w + 1) - a) mod (2 * w + 1) = d.
Proof.
  intros Hd. destruct w_small as [Hpos _].
  rewrite Zminus_mod_idemp_l. replace (a + d - a) with d by lia.
  apply Z.mod_small. exact Hd.
Qed.

Lemma ring_step (a k : Z) :
  ((a + 1) mod (2 * w + 1) + k) mod (2 * w + 1) = (a + (k + 1)) mod (2 * w + 1).
Proof.
  rewrite Zplus_mod_idemp_l. f_equal. lia.
Qed.

(** The offset of a frame of the ring is its distance after [lastAckSent]
    when that is at most [windowSize], and negative or zero otherwise: a
    frame is recorded exactly when it is one of the [windowSize] numbers
    after [lastAckSent]. *)
Lemma offset_window st seq :
  server_wf w st -> window_inv w st -> 0 <= seq < 2 * w + 1 ->
  (0 < offset w st seq <-> 1 <= (seq - lastAckSent st) mod (2 * w + 1) <= w).
Proof.
  intros Hwf [Hedge _] Hseq. pose proof Hwf as (_ & Ha & _).
  destruct w_small as [Hpos _].
  rewrite (offset_in_ring w st seq w_small Hwf Hseq), Hedge.
  set (m := 2 * w + 1) in *.
  set (r := (seq - lastAckSent st) mod m).
  assert (Hr : 0 <= r < m) by (apply Z.mod_pos_bound; lia).
  pose proof (Z.div_mod (lastAckSent st + w) m ltac:(lia)) as H1.
  pose proof (Z.div_mod (seq - lastAckSent st) m ltac:(lia)) as H2.
  fold r in H2.
  destruct (Z_le_gt_dec r w) as [Hle | Hgt].
  - assert (E : (m + (lastAckSent st + w) mod m - seq) mod m = w - r).
    { apply mod_eq_by; [lia |].
      exists (1 - (lastAckSent st + w) / m - (seq - lastAckSent st) / m). lia. }
    rewrite E. lia.
  - assert (E : (m + (lastAckSent st + w) mod m - seq) mod m = w - r + m).
    { apply mod_eq_by; [lia |].
      exists (- ((lastAckSent st + w) / m) - (seq - lastAckSent st) / m). lia. }
    rewrite E. lia.
Qed.

Lemma accept_Ok seq st st1 :
  accept w seq st = Ok st1 ->
  lastAckSent st1 = lastAckSent st /\
  buffer st1 = (if 0 <? offset w st seq
                then <[Z.to_nat seq := true]> (buffer st) else buffer st).
Proof.
  unfold accept. intros H. destruct (0 <? offset w st seq).
  - destruct (assign (buffer st) seq true) as [buf | f] eqn:E; [| discriminate].
    apply assign_Ok in E as [_ ->]. injection H as <-. auto.
  - injection H as <-. auto.
Qed.

(** The inner loop moves [lastAckSent] over the entries that are set after
    it, as far as the first one that is not, and no further than the
    window. *)
Lemma fold_acks_run fuel : forall st st',
  server_wf w st -> window_inv w st ->
  fold_acks fuel w st = Ok st' ->
  exists k,
    0 <= k <= w /\
    lastAckSent st' = (lastAckSent st + k) mod (2 * w + 1) /\
    (forall j, 1 <= j <= k ->
       buffer st !! Z.to_nat ((lastAckSent st + j) mod (2 * w + 1)) = Some true) /\
    buffer st !! Z.to_nat ((lastAckSent st + k + 1) mod (2 * w + 1)) = Some false.
Proof.
  induction fuel as [| fuel IH]; intros st st' Hwf Hwin Hrun; [discriminate |].
  pose proof (next_eq w w_small st Hwf) as Hnext.
  pose proof (next_range w w_small st Hwf) as [Hn Hne].
  pose proof Hwf as (Hlen & Ha & _).
  destruct w_small as [Hpos _].
  cbn [fold_acks] in Hrun.
  destruct (index (buffer st) (next w st)) as [b | f] eqn:Hidx; [| discriminate].
  rewrite result_bind_Ok in Hrun. apply index_Ok in Hidx as [_ Hb].
  destruct b.
  - destruct (advance w (logged (Test (next w st) true) st)) as [st1 | f] eqn:Hadv;
      [| discriminate].
    rewrite result_bind_Ok in Hrun.
    destruct (advance_window w w_small (logged (Test (next w st) true) st) st1
                (conj Hwf Hwin) Hadv) as [Hwf1 Hwin1].
    destruct (IH st1 st' Hwf1 Hwin1 Hrun) as (k & Hk & Hlast & Hset & Hclear).
    apply advance_Ok in Hadv as [_ Hst1]. simpl in Hst1.
    assert (Hl1 : lastAckSent st1 = (lastAckSent st + 1) mod (2 * w + 1))
      by (rewrite Hst1; simpl; exact Hnext).
    assert (Hb1 : buffer st1 = <[Z.to_nat (lastAckSent st) := false]> (buffer st))
      by (rewrite Hst1; reflexivity).
    rewrite Hl1 in Hlast, Hset, Hclear.
    assert (Hkept : forall p, buffer st1 !! p = Some true -> buffer st !! p = Some true).
    { intros p Hp. rewrite Hb1 in Hp.
      destruct (Nat.eq_dec (Z.to_nat (lastAckSent st)) p) as [<- | Hp'].
      - rewrite list_lookup_insert_eq in Hp by lia. discriminate.
      - rewrite list_lookup_insert_ne in Hp by exact Hp'. exact Hp. }
    assert (Hall : forall j, 1 <= j <= k + 1 ->
              buffer st !! Z.to_nat ((lastAckSent st + j) mod (2 * w + 1)) = Some true).
    { intros j Hj. destruct (Z.eq_dec j 1) as [-> | Hj1].
      - rewrite <- Hnext. exact Hb.
      - apply Hkept. specialize (Hset (j - 1) ltac:(lia)).
        rewrite ring_step in Hset. replace (j - 1 + 1) with j in Hset by lia.
        exact Hset. }
    assert (Hkw : k + 1 <= w).
    { destruct Hwin as [_ Hinside].
      pose proof (Hall (k + 1) ltac:(lia)) as Htop.
      pose proof (Z.mod_pos_bound (lastAckSent st + (k + 1)) (2 * w + 1) ltac:(lia)).
      apply Hinside in Htop; [| lia].
      rewrite ring_distance in Htop by lia. exact Htop. }
    exists (k + 1). split; [lia |].
    split; [rewrite Hlast; apply ring_step |].
    split; [exact Hall |].
    replace ((lastAckSent st + 1) mod (2 * w + 1) + k + 1)
      with ((lastAckSent st + 1) mod (2 * w + 1) + (k + 1)) in Hclear by lia.
    rewrite ring_step in Hclear.
    replace (lastAckSent st + (k + 1) + 1) with (lastAckSent st + (k + 1 + 1)) by lia.
    rewrite Hb1 in Hclear.
    rewrite list_lookup_insert_ne in Hclear; [exact Hclear |].
    pose proof (ring_distance (lastAckSent st) (k + 1 + 1) ltac:(lia)) as Hd.
    pose proof (Z.mod_pos_bound (lastAckSent st + (k + 1 + 1)) (2 * w + 1) ltac:(lia)).
    intros E. apply Z2Nat.inj in E; [| lia | lia].
    rewrite <- E in Hd. rewrite Z.sub_diag, Z.mod_0_l in Hd by lia. lia.
  - injection Hrun as <-. exists 0. split; [lia |]. simpl.
    split; [rewrite Z.add_0_r, Z.mod_small by lia; reflexivity |].
    split; [intros j Hj; lia |].
    rewrite Z.add_0_r, <- Hnext. exact Hb.
Qed.

(** One received frame, as [serverEarlyRetrans] answers it. *)
Lemma server_recv_folds seq st st' :
  server_wf w st -> window_inv w st -> quiescent w st ->
  server_recv w seq st = Ok st' ->
  exists received k,
    (0 <= seq < 2 * w + 1 /\ 1 <= (seq - lastAckSent st) mod (2 * w + 1) <= w ->
       received = <[Z.to_nat seq := true]> (buffer st)) /\
    (~ (0 <= seq < 2 * w + 1 /\ 1 <= (seq - lastAckSent st) mod (2 * w + 1) <= w) ->
       received = buffer st) /\
    0 <= k <= w /\
    lastAckSent st' = (lastAckSent st + k) mod (2 * w + 1) /\
    (lastAckSent st' + 1) mod (2 * w + 1) = (lastAckSent st + k + 1) mod (2 * w + 1) /\
    (forall j, 1 <= j <= k ->
       received !! Z.to_nat ((lastAckSent st + j) mod (2 * w + 1)) = Some true) /\
    received !! Z.to_nat ((lastAckSent st + k + 1) mod (2 * w + 1)) = Some false /\
    (seq = (lastAckSent st + 1) mod (2 * w + 1) -> 1 <= k) /\
    (seq <> (lastAckSent st + 1) mod (2 * w + 1) ->
       k = 0 /\ lastAckSent st' = lastAckSent st).
Proof.
  intros Hwf Hwin Hquiet Hrecv.
  pose proof (server_recv_Ok_range w seq st st' Hwf Hrecv) as Hrange.
  pose proof Hwf as (Hlen & Ha & _).
  destruct w_small as [Hpos _].
  unfold server_recv in Hrecv.
  destruct (accept w seq st) as [st1 | f] eqn:Hacc; [| discriminate].
  rewrite result_bind_Ok in Hrecv.
  destruct (fold_acks (S (S (length (buffer st1)))) w st1) as [st2 | f] eqn:Hfold;
    [| discriminate].
  rewrite result_bind_Ok in Hrecv. injection Hrecv as <-. simpl.
  destruct (accept_window w w_small seq st st1 (conj Hwf Hwin) Hacc) as [Hwf1 Hwin1].
  destruct (fold_acks_run _ st1 st2 Hwf1 Hwin1 Hfold) as (k & Hk & Hlast & Hset & Hclear).
  apply accept_Ok in Hacc as [Hl1 Hb1].
  rewrite Hl1 in Hlast, Hset, Hclear.
  assert (Hiff : 0 < offset w st seq <->
            0 <= seq < 2 * w + 1 /\
            1 <= (seq - lastAckSent st) mod (2 * w + 1) <= w).
  { split.
    - intros Hoff. split; [exact (Hrange Hoff) |].
      apply (offset_window st seq Hwf Hwin (Hrange Hoff)), Hoff.
    - intros [Hin Hd]. apply (offset_window st seq Hwf Hwin Hin), Hd. }
  exists (buffer st1), k.
  split.
  { intros Hin. rewrite Hb1. apply Hiff in Hin.
    destruct (Z.ltb_spec 0 (offset w st seq)); [reflexivity | lia]. }
  split.
  { intros Hout. rewrite Hb1.
    destruct (Z.ltb_spec 0 (offset w st seq)) as [Hoff | Hoff]; [| reflexivity].
    exfalso. apply Hout, Hiff, Hoff. }
  split; [exact Hk |]. split; [exact Hlast |].
  split; [rewrite Hlast, Zplus_mod_idemp_l; reflexivity |].
  split; [exact Hset |]. split; [exact Hclear |].
  split.
  - intros Hseq.
    destruct (Z.eq_dec k 0) as [-> | Hk0]; [| lia]. exfalso.
    rewrite Z.add_0_r, <- Hseq in Hclear.
    pose proof (Z.mod_pos_bound (lastAckSent st + 1) (2 * w + 1) ltac:(lia)) as Hb.
    rewrite <- Hseq in Hb.
    assert (Hoff : 0 < offset w st seq).
    { apply Hiff. split; [exact Hb |].
      rewrite Hseq, ring_distance by lia. lia. }
    rewrite Hb1 in Hclear.
    destruct (Z.ltb_spec 0 (offset w st seq)); [| lia].
    rewrite list_lookup_insert_eq in Hclear by lia. discriminate.
  - intros Hseq.
    assert (Hk0 : k = 0).
    { destruct (Z.eq_dec k 0) as [E | E]; [exact E | exfalso].
      specialize (Hset 1 ltac:(lia)). rewrite Hb1 in Hset.
      unfold quiescent in Hquiet.
      destruct (Z.ltb_spec 0 (offset w st seq)) as [Hoff | Hoff].
      - apply Hrange in Hoff.
        pose proof (Z.mod_pos_bound (lastAckSent st + 1) (2 * w + 1) ltac:(lia)).
        rewrite list_lookup_insert_ne in Hset by lia.
        rewrite Hquiet in Hset. discriminate.
      - rewrite Hquiet in Hset. discriminate. }
    split; [exact Hk0 |]. rewrite Hlast, Hk0, Z.add_0_r. apply Z.mod_small. exact Ha.
Qed.

End WindowServerFolding.

(** C7: one acknowledgment per frame.  In every state that
    [serverEarlyRetrans] reaches between two receives, a received frame
    (accepted or not, as long as an accepted one indexes inside the
    occupancy map) is followed by exactly one [ackTo] before the next
    receive and the pass through the loop body ends.  The frame is recorded
    in the occupancy map exactly when its number is one of the [windowSize]
    numbers after [lastAckSent]; [lastAckSent] then moves [k] positions,
    over the entries that are set in the map so recorded and up to the
    first one that is not, and the value sent is the number of that entry,
    [(lastAckSent + 1) mod (2 * windowSize + 1)] for the new [lastAckSent].
    The pointer moves exactly when the frame received is the one after
    [lastAckSent]. *)
Theorem serverEarlyRetrans_one_ack_per_frame (max w : Z) (frames : list Z)
    (st : WindowServer.server) (seq : Z) :
  small_window w ->
  WindowServer.serverEarlyRetrans max w frames = Ok st ->
  (0 < WindowServer.offset w st seq -> 0 <= seq < 2 * w + 1) ->
  let ring := 2 * w + 1 in
  let last := WindowServer.lastAckSent st in
  exists st' mid received k,
    WindowServer.server_recv w seq st = Ok st' /\
    WindowServer.log st' =
      WindowServer.AckTo ((WindowServer.lastAckSent st' + 1) mod ring)
      :: mid ++ WindowServer.Recv seq :: WindowServer.log st /\
    existsb WindowServer.is_ack mid = false /\
    existsb WindowServer.is_recv mid = false /\
    WindowServer.buffer st'
      !! Z.to_nat ((WindowServer.lastAckSent st' + 1) mod ring)
    = Some false /\
    (0 <= seq < ring /\ 1 <= (seq - last) mod ring <= w ->
       received = <[Z.to_nat seq := true]> (WindowServer.buffer st)) /\
    (~ (0 <= seq < ring /\ 1 <= (seq - last) mod ring <= w) ->
       received = WindowServer.buffer st) /\
    0 <= k <= w /\
    WindowServer.lastAckSent st' = (last + k) mod ring /\
    (WindowServer.lastAckSent st' + 1) mod ring = (last + k + 1) mod ring /\
    (forall j, 1 <= j <= k ->
       received !! Z.to_nat ((last + j) mod ring) = Some true) /\
    received !! Z.to_nat ((last + k + 1) mod ring) = Some false /\
    (seq = (last + 1) mod ring -> 1 <= k) /\
    (seq <> (last + 1) mod ring ->
       k = 0 /\ WindowServer.lastAckSent st' = last).
Proof.
  intros Hw Hrun Hin ring last.
  destruct (serverEarlyRetrans_inv w Hw max frames st Hrun) as [Hinv Hq].
  destruct (server_run_window w Hw max frames (WindowServer.server_init w) st)
    as [Hwf Hwin]; [| exact Hrun |].
  { split; [apply server_init_wf, Hw | apply server_init_window, Hw]. }
  destruct (server_recv_ok w Hw seq st Hinv Hq Hin) as
    (st' & mid & Hrecv & _ & Hq' & Hlog & Hna & Hnr & _).
  destruct (server_recv_folds w Hw seq st st' Hwf Hwin Hq Hrecv)
    as (received & k & Hfolds).
  exists st', mid, received, k.
  split; [exact Hrecv |]. split; [exact Hlog |]. split; [exact Hna |].
  split; [exact Hnr |]. split; [exact Hq' |]. exact Hfolds.
Qed.

Lemma serverEarlyRetrans_one_ack_per_frame_witness :
  exists st',
    WindowServer.server_recv 2 0 WindowServer.after_frame_1 = Ok st' /\
    WindowServer.lastAckSent st' = 1 /\
    (WindowServer.lastAckSent st' + 1) mod (2 * 2 + 1) = 2.
Proof.
  destruct (serverEarlyRetrans_one_ack_per_frame 5 2 [1]
              WindowServer.after_frame_1 0 small_window_two eq_refl)
    as (st' & mid & received & k & Hrecv & _ & _ & _ & _ & Hin & _ & Hk & Hlast
        & Hack & _ & Hclear & _).
  { intros _. lia. }
  exists st'. split; [exact Hrecv |].
  rewrite Hin in Hclear by (vm_compute; repeat split; discriminate).
  assert (E : k = 2).
  { assert (Hcases : k = 0 \/ k = 1 \/ k = 2) by lia.
    destruct Hcases as [-> | [-> | ->]];
      [vm_compute in Hclear; discriminate
      | vm_compute in Hclear; discriminate | reflexivity]. }
  rewrite Hack, Hlast, E. split; reflexivity.
Defined.

Section WindowServerAcks.

Import WindowServer.

Variable w : Z.
Hypothesis w_small : small_window w.

Lemma acks_of_app_no_ack mid l :
  existsb is_ack mid = false -> acks_of (mid ++ l) = acks_of l.
Proof.
  induction mid as [| e mid IH]; simpl; [reflexivity |].
  destruct e; simpl; try exact IH. discriminate.
Qed.

Lemma server_run_acks max frames : forall st st',
  server_inv w st -> quiescent w st ->
  Forall (fun v => 0 <= v < 2 * w + 1) (acks_of (log st)) ->
  server_run max w frames st = Ok st' ->
  Forall (fun v => 0 <= v < 2 * w + 1) (acks_of (log st')).
Proof.
  induction frames as [| seq frames IH]; intros st st' Hinv Hq Hacks Hrun;
    simpl in Hrun.
  - injection Hrun as <-. exact Hacks.
  - destruct (msgToAck st <? max); [| injection Hrun as <-; exact Hacks].
    destruct (server_recv w seq st) as [st1 | f] eqn:Hrecv; [| discriminate].
    rewrite result_bind_Ok in Hrun.
    pose proof Hinv as (Hwf & _).
    destruct (server_recv_ok w w_small seq st Hinv Hq
                (server_recv_Ok_range w seq st st1 Hwf Hrecv))
      as (st1' & mid & Hrecv' & Hinv1 & Hq1 & Hlog & Hna & _).
    rewrite Hrecv in Hrecv'. injection Hrecv' as <-.
    apply (IH st1 st' Hinv1 Hq1); [| exact Hrun].
    rewrite Hlog. simpl. constructor.
    + apply Z.mod_pos_bound. destruct w_small. lia.
    + rewrite (acks_of_app_no_ack mid (Recv seq :: log st) Hna). exact Hacks.
Qed.

End WindowServerAcks.

(** The acknowledgments of [serverEarlyRetrans] and [ackAdvance] fit
    together: every acknowledgment the server sends is a position of the
    ring, and on such a value [ackAdvance] returns an advance between 0 and
    [windowSize] for every [lastSeqRec] of the ring. *)
Theorem serverEarlyRetrans_acks_fit_ackAdvance (max w : Z) (frames : list Z)
    (st : WindowServer.server) (v lastSeqRec : Z) :
  small_window w ->
  WindowServer.serverEarlyRetrans max w frames = Ok st ->
  In v (WindowServer.acks_of (WindowServer.log st)) ->
  0 <= lastSeqRec < 2 * w + 1 ->
  0 <= v < 2 * w + 1 /\ 0 <= ackAdvance (Some v) lastSeqRec w <= w.
Proof.
  intros Hw Hrun Hv Hl.
  destruct (server_init_inv w Hw) as [Hinv Hq].
  assert (Hacks : Forall (fun v => 0 <= v < 2 * w + 1)
                    (WindowServer.acks_of (WindowServer.log st))).
  { apply (server_run_acks w Hw max frames (WindowServer.server_init w) st Hinv Hq);
      [constructor | exact Hrun]. }
  rewrite List.Forall_forall in Hacks. pose proof (Hacks v Hv) as Hring.
  split; [exact Hring |].
  apply (ackAdvance_in_ring w lastSeqRec v Hw Hl Hring).
Qed.

Lemma serverEarlyRetrans_acks_fit_ackAdvance_witness :
  0 <= 2 < 2 * 2 + 1 /\ 0 <= ackAdvance (Some 2) 0 2 <= 2.
Proof.
  apply (serverEarlyRetrans_acks_fit_ackAdvance 5 2 [1; 0]
           WindowServer.after_frames_1_0 2 0 small_window_two eq_refl).
  - simpl. auto.
  - lia.
Defined.

Lemma server_recv_counts w seq st st' :
  WindowServer.server_recv w seq st = Ok st' ->
  WindowServer.count_marks (WindowServer.log st')
  = (WindowServer.count_marks (WindowServer.log st)
     + (if (0 <? WindowServer.offset w st seq)%Z then 1 else 0))%nat /\
  WindowServer.msgToAck st'
  = (if 0 <? WindowServer.offset w st seq
     then Int.add (WindowServer.msgToAck st) 1
     else WindowServer.msgToAck st).
Proof.
  intros Hrecv. unfold WindowServer.server_recv in Hrecv.
  destruct (WindowServer.accept w seq st) as [st1 | f] eqn:Hacc; [| discriminate].
  rewrite result_bind_Ok in Hrecv.
  destruct (WindowServer.fold_acks _ w st1) as [st2 | f] eqn:Hfold; [| discriminate].
  rewrite result_bind_Ok in Hrecv. injection Hrecv as <-. simpl.
  assert (H1 : WindowServer.count_marks (WindowServer.log st1)
               = (WindowServer.count_marks (WindowServer.log st)
                  + (if (0 <? WindowServer.offset w st seq)%Z then 1 else 0))%nat /\
               WindowServer.msgToAck st1 = WindowServer.msgToAck st).
  { unfold WindowServer.accept in Hacc.
    destruct (0 <? WindowServer.offset w st seq).
    - destruct (assign (WindowServer.buffer st) seq true) as [buf | f];
        [| discriminate].
      injection Hacc as <-. simpl. split; [lia | reflexivity].
    - injection Hacc as <-. simpl. split; [lia | reflexivity]. }
  assert (H2 : WindowServer.count_marks (WindowServer.log st2)
               = WindowServer.count_marks (WindowServer.log st1) /\
               WindowServer.msgToAck st2 = WindowServer.msgToAck st1).
  { apply (fold_acks_preserves w
             (fun s => WindowServer.count_marks (WindowServer.log s)
                       = WindowServer.count_marks (WindowServer.log st1) /\
                       WindowServer.msgToAck s = WindowServer.msgToAck st1))
      with (fuel := S (S (length (WindowServer.buffer st1)))) (st := st1).
    - intros s b Hs. exact Hs.
    - intros s s' Hs _ Hadv. apply advance_Ok in Hadv as [_ ->]. exact Hs.
    - split; reflexivity.
    - exact Hfold. }
  destruct H1 as [Hc1 Hm1], H2 as [Hc2 Hm2].
  split; [rewrite Hc2; exact Hc1 |].
  rewrite Hm2, Hm1.
  destruct (Z.ltb_spec 0 (WindowServer.offset w st seq)),
           (Z.leb_spec (WindowServer.offset w st seq) 0); try lia; reflexivity.
Qed.

Lemma server_run_counts max w frames : forall st st',
  Int.in_range max ->
  WindowServer.msgToAck st
  = Z.of_nat (WindowServer.count_marks (WindowServer.log st)) ->
  WindowServer.msgToAck st <= Z.max 0 max ->
  WindowServer.server_run max w frames st = Ok st' ->
  WindowServer.msgToAck st'
  = Z.of_nat (WindowServer.count_marks (WindowServer.log st')) /\
  WindowServer.msgToAck st' <= Z.max 0 max.
Proof.
  induction frames as [| seq frames IH]; intros st st' Hmax Hcnt Hle Hrun;
    simpl in Hrun.
  - injection Hrun as <-. auto.
  - destruct (Z.ltb_spec (WindowServer.msgToAck st) max) as [Hlt | Hge];
      [| injection Hrun as <-; auto].
    destruct (WindowServer.server_recv w seq st) as [st1 | f] eqn:Hrecv;
      [| discriminate].
    rewrite result_bind_Ok in Hrun.
    destruct (server_recv_counts w seq st st1 Hrecv) as [Hc Hm].
    apply (IH st1 st' Hmax); [| | exact Hrun].
    + rewrite Hm, Hc. destruct (0 <? WindowServer.offset w st seq).
      * rewrite Int_add_small by int_range. lia.
      * lia.
    + rewrite Hm. destruct (0 <? WindowServer.offset w st seq).
      * rewrite Int_add_small by int_range. lia.
      * lia.
Qed.

(** What [serverEarlyRetrans] counts: [msgToAck] is the number of writes
    into the occupancy map, one for every received frame with a positive
    offset (also for a frame whose entry is already set), and it never
    passes [max]. *)
Theorem serverEarlyRetrans_counts_marked_frames (max w : Z) (frames : list Z)
    (st : WindowServer.server) :
  Int.in_range max ->
  WindowServer.serverEarlyRetrans max w frames = Ok st ->
  WindowServer.msgToAck st
  = Z.of_nat (WindowServer.count_marks (WindowServer.log st)) /\
  WindowServer.msgToAck st <= Z.max 0 max.
Proof.
  intros Hmax Hrun.
  apply (server_run_counts max w frames (WindowServer.server_init w) st Hmax);
    [reflexivity | simpl; lia | exact Hrun].
Qed.

Lemma serverEarlyRetrans_counts_marked_frames_witness :
  exists st,
    WindowServer.serverEarlyRetrans 5 2 [1; 1; 0] = Ok st /\
    WindowServer.msgToAck st = 3 /\
    WindowServer.msgToAck st
    = Z.of_nat (WindowServer.count_marks (WindowServer.log st)) /\
    WindowServer.msgToAck st <= Z.max 0 5.
Proof.
  destruct (WindowServer.serverEarlyRetrans 5 2 [1; 1; 0]) as [st | f] eqn:Hrun;
    [| vm_compute in Hrun; discriminate].
  exists st. split; [reflexivity |].
  split; [vm_compute in Hrun; injection Hrun as <-; reflexivity |].
  apply (serverEarlyRetrans_counts_marked_frames 5 2 [1; 1; 0] st);
    [unfold Int.in_range, Int.min_int, Int.max_int; lia | exact Hrun].
Defined.

(** ** The sliding-window server on frames that arrive in order *)

Section WindowServerInOrder.

Import WindowServer.

Variable w : Z.
Hypothesis w_small : small_window w.

Lemma fold_acks_stop fuel st :
  index (buffer st) (next w st) = Ok false ->
  fold_acks (S fuel) w st = Ok (logged (Test (next w st) false) st).
Proof. intros H. cbn [fold_acks]. rewrite H. reflexivity. Qed.

Lemma fold_acks_go fuel st st1 :
  index (buffer st) (next w st) = Ok true ->
  advance w (logged (Test (next w st) true) st) = Ok st1 ->
  fold_acks (S fuel) w st = fold_acks fuel w st1.
Proof.
  intros H Hadv. cbn [fold_acks]. rewrite H, result_bind_Ok. cbv zeta.
  rewrite Hadv. reflexivity.
Qed.

Lemma advance_in_range st :
  0 <= lastAckSent st < Z.of_nat (length (buffer st)) ->
  advance w st
  = Ok {| largestAccFrame := Int.rem (Int.add (largestAccFrame st) 1) (seqRange w);
          lastAckSent := next w st;
          buffer := <[Z.to_nat (lastAckSent st) := false]> (buffer st);
          msgToAck := msgToAck st;
          log := Advance (lastAckSent st) (next w st) :: log st |}.
Proof.
  intros Hr. unfold advance, assign.
  destruct (Z.leb_spec 0 (lastAckSent st)); [| lia].
  destruct (Z.ltb_spec (lastAckSent st) (Z.of_nat (length (buffer st)))); [| lia].
  reflexivity.
Qed.

Lemma in_order_step k st :
  in_order w k st -> 0 <= k -> k < Int.max_int ->
  exists st',
    server_recv w (k mod (2 * w + 1)) st = Ok st' /\
    in_order w (k + 1) st' /\
    acks_of (log st') = (k + 1) mod (2 * w + 1) :: acks_of (log st).
Proof.
  intros (Hwf & Ha & Hl & Hcnt & Hclear) Hk Hkmax.
  pose proof Hwf as (Hlen & Hra & Hrl).
  pose proof w_small as [Hpos Hmax]. unfold Int.max_int in Hmax, Hkmax.
  set (m := 2 * w + 1) in *.
  set (seq := k mod m).
  assert (Hseq : 0 <= seq < m) by (apply Z.mod_pos_bound; lia).
  (* the offset of the expected frame is 1 *)
  assert (Hoff : offset w st seq = 1).
  { rewrite (offset_in_ring w st seq w_small Hwf Hseq). fold m.
    rewrite Hl. unfold seq. rewrite Zminus_mod_idemp_r.
    replace (m + (k - 1 + w) mod m - k) with ((k - 1 + w) mod m + (m - k)) by lia.
    rewrite Zplus_mod_idemp_l.
    replace (k - 1 + w + (m - k)) with (w - 1 + 1 * m) by lia.
    rewrite Z_mod_plus_full, Z.mod_small by lia. lia. }
  (* the frame is written into the map *)
  set (st1 := {| largestAccFrame := largestAccFrame st;
                 lastAckSent := lastAckSent st;
                 buffer := <[Z.to_nat seq := true]> (buffer st);
                 msgToAck := msgToAck st;
                 log := Mark seq :: Recv seq :: log st |}).
  assert (Hacc : accept w seq st = Ok st1).
  { unfold accept. rewrite Hoff. simpl. unfold assign.
    destruct (Z.leb_spec 0 seq); [| lia].
    destruct (Z.ltb_spec seq (Z.of_nat (length (buffer st)))); [| lia].
    reflexivity. }
  assert (Hwf1 : server_wf w st1).
  { unfold server_wf, st1; simpl. rewrite length_insert. auto. }
  assert (Hnext1 : next w st1 = seq).
  { rewrite (next_eq w w_small st1 Hwf1). unfold st1; simpl. fold m.
    rewrite Ha, Zplus_mod_idemp_l. unfold seq. f_equal. lia. }
  assert (Hidx1 : index (buffer st1) (next w st1) = Ok true).
  { rewrite Hnext1. apply index_Ok. split; [lia |].
    unfold st1; simpl. apply list_lookup_insert_eq. lia. }
  (* one round of the inner loop *)
  set (st2 := {| largestAccFrame :=
                   Int.rem (Int.add (largestAccFrame st) 1) (seqRange w);
                 lastAckSent := seq;
                 buffer := <[Z.to_nat (lastAckSent st) := false]>
                             (<[Z.to_nat seq := true]> (buffer st));
                 msgToAck := msgToAck st;
                 log := Advance (lastAckSent st) seq
                        :: Test seq true :: Mark seq :: Recv seq :: log st |}).
  assert (Hadv : advance w (logged (Test (next w st1) true) st1) = Ok st2).
  { rewrite advance_in_range.
    - change (next w (logged (Test (next w st1) true) st1)) with (next w st1).
      rewrite Hnext1. reflexivity.
    - simpl. rewrite length_insert. lia. }
  assert (Hlarge : largestAccFrame st2 = (k + w) mod m).
  { unfold st2; simpl. rewrite (ring_eq w w_small). fold m. int_small.
    rewrite Int_rem_nonneg by lia. rewrite Hl, Zplus_mod_idemp_l.
    f_equal. lia. }
  assert (Hwf2 : server_wf w st2).
  { unfold server_wf. rewrite Hlarge. unfold st2; simpl.
    rewrite !length_insert. fold m.
    split; [exact Hlen |]. split; [exact Hseq |]. apply Z.mod_pos_bound. lia. }
  assert (Hclear2 : forall i, 0 <= i < m -> i <> seq ->
                      buffer st2 !! Z.to_nat i = Some false).
  { intros i Hi Hne. unfold st2; simpl.
    destruct (Z.eq_dec i (lastAckSent st)) as [-> | Hia].
    - apply list_lookup_insert_eq. rewrite length_insert. lia.
    - rewrite !list_lookup_insert_ne by lia. apply Hclear; assumption. }
  pose proof (next_range w w_small st2 Hwf2) as [Hn2 Hne2].
  assert (Hidx2 : index (buffer st2) (next w st2) = Ok false).
  { apply index_Ok. split; [lia |]. apply Hclear2; [exact Hn2 | exact Hne2]. }
  assert (Hfold : fold_acks (S (S (length (buffer st1)))) w st1
                  = Ok (logged (Test (next w st2) false) st2)).
  { rewrite (fold_acks_go _ st1 st2 Hidx1 Hadv). apply fold_acks_stop, Hidx2. }
  assert (Hnext2 : next w st2 = (k + 1) mod m).
  { rewrite (next_eq w w_small st2 Hwf2). unfold st2; simpl. fold m.
    unfold seq. rewrite Zplus_mod_idemp_l. reflexivity. }
  rewrite Hnext2 in Hfold.
  exists {| largestAccFrame := largestAccFrame st2; lastAckSent := seq;
            buffer := buffer st2; msgToAck := Int.add (msgToAck st) 1;
            log := AckTo ((k + 1) mod m)
                   :: Test ((k + 1) mod m) false :: log st2 |}.
  split.
  { unfold server_recv. rewrite Hacc, result_bind_Ok, Hfold, result_bind_Ok, Hoff.
    change (next w (logged (Test ((k + 1) mod m) false) st2)) with (next w st2).
    rewrite Hnext2. reflexivity. }
  split; [| reflexivity].
  split; [exact Hwf2 |]. cbn [lastAckSent largestAccFrame msgToAck buffer].
  split; [unfold seq; f_equal; lia |].
  split; [rewrite Hlarge; f_equal; lia |].
  split; [rewrite Hcnt; apply Int_add_small; int_range |].
  exact Hclear2.
Qed.

Lemma in_order_run max n : forall k st,
  Int.in_range max ->
  in_order w k st -> 0 <= k -> k + Z.of_nat n <= max ->
  exists st',
    server_run max w (numbers (2 * w + 1) n k) st = Ok st' /\
    in_order w (k + Z.of_nat n) st' /\
    acks_of (log st') = rev (numbers (2 * w + 1) n (k + 1)) ++ acks_of (log st).
Proof.
  induction n as [| n IH]; intros k st Hmax Hst Hk Hle.
  - exists st. simpl. rewrite Z.add_0_r. auto.
  - cbn [numbers server_run].
    pose proof Hst as (_ & _ & _ & Hcnt & _).
    destruct (Z.ltb_spec (msgToAck st) max); [| lia].
    destruct (in_order_step k st Hst Hk) as (st1 & Hrecv & Hst1 & Hacks1);
      [int_range |].
    rewrite Hrecv, result_bind_Ok.
    destruct (IH (k + 1) st1 Hmax Hst1) as (st' & Hrun & Hst' & Hacks');
      [lia | lia |].
    exists st'. split; [exact Hrun |].
    split; [replace (k + Z.of_nat (S n)) with (k + 1 + Z.of_nat n) by lia;
            exact Hst' |].
    rewrite Hacks', Hacks1. simpl. rewrite <- app_assoc. reflexivity.
Qed.

Lemma server_init_in_order : in_order w 0 (server_init w).
Proof.
  pose proof w_small as [Hpos Hmax]. unfold Int.max_int in Hmax.
  split; [apply server_init_wf, w_small |].
  simpl. rewrite (ring_eq w w_small). int_small.
  assert (Hm1 : (0 - 1) mod (2 * w + 1) = 2 * w).
  { symmetry. apply Z.mod_unique_pos with (q := -1); lia. }
  split; [rewrite Hm1; lia |].
  split.
  { replace (0 - 1 + w) with (w - 1) by lia. rewrite Z.mod_small by lia.
    reflexivity. }
  split; [reflexivity |].
  intros i Hi _. apply lookup_replicate. split; [reflexivity | lia].
Qed.

End WindowServerInOrder.

(** In-order delivery.  When the frames of the messages 0, 1, ..., [n - 1]
    (numbered modulo [2 * windowSize + 1]) arrive in order, with [n <= max],
    [serverEarlyRetrans] takes every one of them: it counts [n] messages,
    its cumulative pointer is at the number of message [n - 1], and it
    answers message [k] with the number of message [k + 1]. *)
Theorem serverEarlyRetrans_in_order (max w : Z) (n : nat) :
  small_window w -> Int.in_range max -> Z.of_nat n <= max ->
  exists st,
    WindowServer.serverEarlyRetrans max w (WindowServer.numbers (2 * w + 1) n 0)
    = Ok st /\
    WindowServer.msgToAck st = Z.of_nat n /\
    WindowServer.lastAckSent st = (Z.of_nat n - 1) mod (2 * w + 1) /\
    rev (WindowServer.acks_of (WindowServer.log st))
    = WindowServer.numbers (2 * w + 1) n 1.
Proof.
  intros Hw Hmax Hn.
  destruct (in_order_run w Hw max n 0 (WindowServer.server_init w) Hmax
              (server_init_in_order w Hw))
    as (st & Hrun & (_ & Ha & _ & Hcnt & _) & Hacks); [lia | lia |].
  exists st. split; [exact Hrun |].
  split; [rewrite Hcnt; lia |].
  split; [rewrite Ha; f_equal; lia |].
  rewrite Hacks. simpl. rewrite app_nil_r. apply rev_involutive.
Qed.

Lemma serverEarlyRetrans_in_order_witness :
  exists st,
    WindowServer.serverEarlyRetrans 7 2 (WindowServer.numbers (2 * 2 + 1) 7 0)
    = Ok st /\
    WindowServer.msgToAck st = Z.of_nat 7 /\
    WindowServer.lastAckSent st = (Z.of_nat 7 - 1) mod (2 * 2 + 1) /\
    rev (WindowServer.acks_of (WindowServer.log st))
    = WindowServer.numbers (2 * 2 + 1) 7 1.
Proof.
  apply (serverEarlyRetrans_in_order 7 2 7 small_window_two).
  - unfold Int.in_range, Int.min_int, Int.max_int. lia.
  - lia.
Defined.

(** ** [clientSlidingWindow] on every script *)

Section WindowClientRuns.

Import WindowClient.

Variable words : nat.
Variable max w : Z.
Hypothesis w_small : small_window w.
Hypothesis max_int_range : Int.in_range max.

Lemma resend_fields k : forall i st st',
  resend k i max w st = Ok st' ->
  msgNum st' = msgNum st /\ at_pc st' = at_pc st /\ message st' = message st.
Proof.
  induction k as [| k IH]; intros i st st' Hrun; simpl in Hrun.
  - injection Hrun as <-. auto.
  - destruct (read (buffer st) _) as [v | f]; [| discriminate].
    rewrite result_bind_Ok in Hrun. apply IH in Hrun as (H1 & H2 & H3). auto.
Qed.

Lemma copy_length k : forall i base msg buf buf',
  copy k i base msg buf = Ok buf' -> length buf' = length buf.
Proof.
  induction k as [| k IH]; intros i base msg buf buf' Hrun; simpl in Hrun.
  - injection Hrun as <-. reflexivity.
  - destruct (index msg i) as [m | f]; [| discriminate].
    rewrite result_bind_Ok in Hrun.
    destruct (assign buf (Int.add base i) (Some m)) as [buf1 | f] eqn:E;
      [| discriminate].
    rewrite result_bind_Ok in Hrun. apply assign_Ok in E as [_ ->].
    rewrite (IH _ _ _ _ _ Hrun). apply length_insert.
Qed.

Lemma wait_Ok o st st' :
  wait max w o st = Ok st' ->
  msgNum st' = msgNum st /\ lastFrameSent st' = lastFrameSent st /\
  at_pc st' = AtWhile /\ length (buffer st') = length (buffer st) /\
  exists vs,
    sent st' = map Address vs ++ sent st /\
    retrans st' = Nat.iter (length vs) (fun r => Int.add r 1) (retrans st).
Proof.
  unfold wait. intros H.
  destruct (MAX_TIME <? Timer.lap (timeout st) (now o)).
  - destruct (resend _ 1 max w st) as [st1 | f] eqn:Hres; [| discriminate].
    rewrite !result_bind_Ok in H.
    destruct (read _ _) as [v | f]; [| discriminate].
    rewrite result_bind_Ok in H. injection H as <-. simpl.
    destruct (resend_fields _ _ _ _ Hres) as (Hn & _ & _).
    destruct (resend_counts _ _ _ _ _ _ Hres) as (vs & Hlen & Hs & Hr & _ & Hf & Hb).
    repeat split; try assumption; [rewrite Hb; reflexivity |].
    exists vs. rewrite Hlen. auto.
  - rewrite result_bind_Ok in H.
    destruct (read _ _) as [v | f]; [| discriminate].
    rewrite result_bind_Ok in H. injection H as <-. simpl.
    repeat split. exists []. auto.
Qed.

Lemma send_Ok o st st' :
  send words max w o st = Ok st' ->
  msgNum st' = Int.add (msgNum st) 1 /\
  lastFrameSent st' = Int.rem (Int.add (lastFrameSent st) 1) (Int.add w 1) /\
  retrans st' = retrans st /\
  sent st' = Message (Int.rem (msgNum st) (Int.add (Int.mul w 2) 1)) :: sent st /\
  at_pc st' = (if Int.add (msgNum st) 1 <? max then AtStart else AtReturn) /\
  length (buffer st') = length (buffer st).
Proof.
  unfold send. intros H.
  destruct (assign (message st) 0 _) as [msg | f]; [| discriminate].
  rewrite result_bind_Ok in H.
  destruct (copy words 0 _ msg (buffer st)) as [buf | f] eqn:Hcopy; [| discriminate].
  rewrite result_bind_Ok in H.
  destruct (read buf _) as [v | f]; [| discriminate].
  rewrite result_bind_Ok in H. injection H as <-. simpl.
  repeat split. apply (copy_length _ _ _ _ _ _ Hcopy).
Qed.

Lemma numbers_snoc m n : forall k,
  WindowServer.numbers m (S n) k
  = WindowServer.numbers m n k ++ [(k + Z.of_nat n) mod m].
Proof.
  induction n as [| n IH]; intros k.
  - simpl. rewrite Z.add_0_r. reflexivity.
  - change (WindowServer.numbers m (S (S n)) k)
      with (k mod m :: WindowServer.numbers m (S n) (k + 1)).
    rewrite IH.
    replace (k + Z.of_nat (S n)) with (k + 1 + Z.of_nat n) by lia.
    reflexivity.
Qed.

Lemma messages_of_resends vs l :
  WindowSession.messages_of (map Address vs ++ l) = WindowSession.messages_of l /\
  WindowSession.count_resends (map Address vs ++ l)
  = (length vs + WindowSession.count_resends l)%nat.
Proof.
  induction vs as [| v vs [IH1 IH2]]; simpl; [auto |].
  split; [exact IH1 | rewrite IH2; reflexivity].
Qed.

Lemma iter_add_wrap k c :
  Nat.iter k (fun r => Int.add r 1) (Int.wrap c) = Int.wrap (c + Z.of_nat k).
Proof.
  induction k as [| k IH].
  - simpl. f_equal. lia.
  - rewrite Nat.iter_succ, IH. unfold Int.add. rewrite Int_wrap_add_l.
    f_equal. lia.
Qed.

Lemma window_client_step_inv o st st' :
  WindowSession.client_inv max w st ->
  client_step words max w o st = Ok st' ->
  WindowSession.client_inv max w st'.
Proof.
  intros (Hn & Hf & Hmsg & Hret & Hend) Hstep.
  pose proof w_small as [Hpos Hwmax]. unfold Int.max_int in Hwmax.
  unfold client_step in Hstep.
  destruct (at_pc st) eqn:Hpc.
  - (* AtStart *)
    injection Hstep as <-. unfold WindowSession.client_inv; simpl.
    repeat split; try assumption; try lia.
    + discriminate.
    + intros Hge. apply Hend in Hge. discriminate.
  - (* AtWhile *)
    assert (Hlt : msgNum st < max).
    { destruct (Z_lt_ge_dec (msgNum st) max) as [H | H]; [exact H |].
      assert (Hr : AtWhile = AtReturn) by (apply Hend; lia). discriminate. }
    destruct (full w st).
    + apply wait_Ok in Hstep as (Hn' & Hf' & Hpc' & _ & vs & Hs' & Hr').
      destruct (messages_of_resends vs (sent st)) as [Hm1 Hc1].
      unfold WindowSession.client_inv.
      rewrite Hn', Hf', Hs', Hm1, Hc1, Hr', Hret, iter_add_wrap, Hpc'.
      repeat split; try assumption; try lia; try discriminate;
        try (f_equal; lia).
    + apply send_Ok in Hstep as (Hn' & Hf' & Hr' & Hs' & Hpc' & _).
      assert (Hnum : Int.add (msgNum st) 1 = msgNum st + 1)
        by (apply Int_add_small; int_range).
      rewrite Hnum in *.
      pose proof (Z.mod_pos_bound (msgNum st) (w + 1)) as Hslot.
      unfold WindowSession.client_inv.
      rewrite Hn', Hf', Hs', Hr', Hpc'. simpl.
      split; [lia |]. split.
      { rewrite Hf. int_small. rewrite Int_rem_nonneg by lia.
        rewrite Zplus_mod_idemp_l. reflexivity. }
      split.
      { rewrite Hmsg. replace (Z.to_nat (msgNum st + 1)) with (S (Z.to_nat (msgNum st)))
          by lia.
        rewrite numbers_snoc. do 2 f_equal.
        rewrite (seqRange_small w w_small). rewrite Int_rem_nonneg by lia.
        f_equal. lia. }
      split; [exact Hret |].
      destruct (Z.ltb_spec (msgNum st + 1) max); split; try discriminate; try lia;
        reflexivity.
  - (* AtReturn *)
    injection Hstep as <-. unfold WindowSession.client_inv. rewrite Hpc.
    split; [exact Hn |]. split; [exact Hf |]. split; [exact Hmsg |].
    split; [exact Hret | exact Hend].
Qed.

Lemma window_client_run_inv script : forall st st',
  WindowSession.client_inv max w st ->
  client_run words max w script st = Ok st' ->
  WindowSession.client_inv max w st'.
Proof.
  induction script as [| o script IH]; intros st st' Hst Hrun; simpl in Hrun.
  - injection Hrun as <-. exact Hst.
  - destruct (client_step words max w o st) as [st1 | f] eqn:Hstep; [| discriminate].
    rewrite result_bind_Ok in Hrun.
    apply (IH st1 st'); [| exact Hrun].
    apply (window_client_step_inv o st st1 Hst Hstep).
Qed.

Lemma window_client_init_inv message :
  WindowSession.client_inv max w (client_init max w message).
Proof.
  unfold WindowSession.client_inv, client_init, for_head; simpl.
  split; [lia |]. split; [rewrite Z.mod_0_l; [reflexivity | destruct w_small; lia] |].
  split; [reflexivity |]. split; [reflexivity |].
  destruct (Z.ltb_spec 0 max); split; try discriminate; try lia; reflexivity.
Qed.

End WindowClientRuns.

(** The cursor and the numbering of [clientSlidingWindow], whatever
    arrives: [msgNum] counts the new frames sent and stays within
    [0 .. max], the leading cursor [lastFrameSent] is [msgNum] modulo
    [windowSize + 1], the new frames carry, in order, the numbers
    0, 1, 2, ... modulo [2 * windowSize + 1], and the function has returned
    exactly when [msgNum] has reached [max]. *)
Theorem clientSlidingWindow_numbers_frames (words : nat) (max : Z)
    (message : list Z) (w : Z) (script : list obs) (st : WindowClient.client) :
  small_window w -> Int.in_range max ->
  WindowClient.clientSlidingWindow words max message w script = Ok st ->
  0 <= WindowClient.msgNum st <= Z.max 0 max /\
  WindowClient.lastFrameSent st = WindowClient.msgNum st mod (w + 1) /\
  rev (WindowSession.messages_of (WindowClient.sent st))
  = WindowServer.numbers (2 * w + 1) (Z.to_nat (WindowClient.msgNum st)) 0 /\
  (WindowClient.at_pc st = WindowClient.AtReturn <-> max <= WindowClient.msgNum st).
Proof.
  intros Hw Hmax Hrun.
  destruct (window_client_run_inv words max w Hw Hmax script _ st
              (window_client_init_inv max w Hw message) Hrun)
    as (H1 & H2 & H3 & _ & H5).
  auto.
Qed.

Lemma small_window_one : small_window 1.
Proof. split; [lia | unfold Int.max_int; lia]. Qed.

Lemma int_range_three : Int.in_range 3.
Proof. unfold Int.in_range, Int.min_int, Int.max_int. lia. Qed.

Lemma clientSlidingWindow_numbers_frames_witness :
  0 <= WindowClient.msgNum WindowSession.full_at_last_slot <= Z.max 0 3 /\
  WindowClient.lastFrameSent WindowSession.full_at_last_slot
  = WindowClient.msgNum WindowSession.full_at_last_slot mod (1 + 1) /\
  rev (WindowSession.messages_of (WindowClient.sent WindowSession.full_at_last_slot))
  = WindowServer.numbers (2 * 1 + 1)
      (Z.to_nat (WindowClient.msgNum WindowSession.full_at_last_slot)) 0 /\
  (WindowClient.at_pc WindowSession.full_at_last_slot = WindowClient.AtReturn
   <-> 3 <= WindowClient.msgNum WindowSession.full_at_last_slot).
Proof.
  apply (clientSlidingWindow_numbers_frames 2 3 [0; 7] 1
           [ {| now := 0; dgram := None |}; {| now := 1; dgram := Some 1 |};
             {| now := 2; dgram := None |}; {| now := 3; dgram := None |};
             {| now := 4; dgram := None |} ]
           WindowSession.full_at_last_slot small_window_one int_range_three).
  reflexivity.
Defined.

(** What [clientSlidingWindow] counts, whatever arrives: [retrans] is the
    number of [sendTo] calls made by the retransmission loop (as an
    [int]); sending a new frame never changes it. *)
Theorem clientSlidingWindow_counts_resends (words : nat) (max : Z)
    (message : list Z) (w : Z) (script : list obs) (st : WindowClient.client) :
  small_window w -> Int.in_range max ->
  WindowClient.clientSlidingWindow words max message w script = Ok st ->
  WindowClient.retrans st
  = Int.wrap (Z.of_nat (WindowSession.count_resends (WindowClient.sent st))).
Proof.
  intros Hw Hmax Hrun.
  destruct (window_client_run_inv words max w Hw Hmax script _ st
              (window_client_init_inv max w Hw message) Hrun)
    as (_ & _ & _ & H4 & _).
  exact H4.
Qed.

Lemma clientSlidingWindow_counts_resends_witness :
  exists st,
    WindowClient.clientSlidingWindow 2 5 [0; 7] 2
      [ {| now := 0; dgram := None |}; {| now := 1; dgram := None |};
        {| now := 2; dgram := None |}; {| now := 3; dgram := None |};
        {| now := 4; dgram := None |}; {| now := 1600; dgram := None |} ] = Ok st /\
    WindowClient.retrans st = 2 /\
    WindowClient.retrans st
    = Int.wrap (Z.of_nat (WindowSession.count_resends (WindowClient.sent st))).
Proof.
  destruct (WindowClient.clientSlidingWindow 2 5 [0; 7] 2
              [ {| now := 0; dgram := None |}; {| now := 1; dgram := None |};
                {| now := 2; dgram := None |}; {| now := 3; dgram := None |};
                {| now := 4; dgram := None |}; {| now := 1600; dgram := None |} ])
    as [st | f] eqn:Hrun; [| vm_compute in Hrun; discriminate].
  exists st. split; [reflexivity |].
  split; [vm_compute in Hrun; injection Hrun as <-; reflexivity |].
  eapply (clientSlidingWindow_counts_resends 2 5 [0; 7] 2);
    [exact small_window_two
    | unfold Int.in_range, Int.min_int, Int.max_int; lia
    | exact Hrun].
Defined.

Lemma client_run_returned words max w script : forall st,
  WindowClient.at_pc st = WindowClient.AtReturn ->
  WindowClient.client_run words max w script st = Ok st.
Proof.
  induction script as [| o script IH]; intros st Hpc; simpl; [reflexivity |].
  unfold WindowClient.client_step. rewrite Hpc, result_bind_Ok. apply IH, Hpc.
Qed.

(** With nothing to send ([max = 0], so that [buffer] has no cell)
    [clientSlidingWindow] returns 0 at once, whatever the environment
    shows.  The [for] loop is left at its first test: the state returned is
    the state on entry, with nothing sent.  No cell of [buffer] is read or
    written: [buffer] has no cell, and run from the entry state with any
    cells [cells] in the place of [buffer] the function returns in the same
    way and leaves [cells] as they were. *)
Theorem clientSlidingWindow_nothing_to_send (words : nat) (message : list Z)
    (w : Z) (script : list obs) (cells : list (option Z)) :
  small_window w ->
  let entry := WindowClient.client_init 0 w message in
  let entry_with :=
    {| WindowClient.retrans := WindowClient.retrans entry;
       WindowClient.lastAckRec := WindowClient.lastAckRec entry;
       WindowClient.lastFrameSent := WindowClient.lastFrameSent entry;
       WindowClient.timeout := WindowClient.timeout entry;
       WindowClient.buffer := cells;
       WindowClient.message := WindowClient.message entry;
       WindowClient.msgNum := WindowClient.msgNum entry;
       WindowClient.at_pc := WindowClient.at_pc entry;
       WindowClient.sent := WindowClient.sent entry |} in
  WindowClient.clientSlidingWindow words 0 message w script = Ok entry /\
  WindowClient.at_pc entry = WindowClient.AtReturn /\
  WindowClient.retrans entry = 0 /\
  WindowClient.sent entry = [] /\
  WindowClient.message entry = message /\
  WindowClient.buffer entry = [] /\
  WindowClient.client_run words 0 w script entry_with = Ok entry_with.
Proof.
  intros Hw entry entry_with.
  assert (Hpc : WindowClient.at_pc entry = WindowClient.AtReturn) by reflexivity.
  split; [apply (client_run_returned words 0 w script entry Hpc) |].
  split; [exact Hpc |]. split; [reflexivity |]. split; [reflexivity |].
  split; [reflexivity |].
  split.
  - unfold entry, WindowClient.client_init, WindowClient.for_head; simpl.
    unfold Int.mul. rewrite Z.mul_0_r. reflexivity.
  - apply (client_run_returned words 0 w script entry_with). exact Hpc.
Qed.

Lemma clientSlidingWindow_nothing_to_send_witness :
  WindowClient.clientSlidingWindow 2 0 [0; 7] 2 [ {| now := 9; dgram := Some 1 |} ]
  = Ok (WindowClient.client_init 0 2 [0; 7]) /\
  WindowClient.buffer (WindowClient.client_init 0 2 [0; 7]) = [].
Proof.
  pose proof (clientSlidingWindow_nothing_to_send 2 [0; 7] 2
                [ {| now := 9; dgram := Some 1 |} ] [Some 5] small_window_two) as H.
  cbv zeta in H. destruct H as (Hrun & _ & _ & _ & _ & Hbuf & _).
  split; [exact Hrun | exact Hbuf].
Defined.

(** The waiting loop at the last slot.  Whenever the window is full with
    the trailing cursor [lastAckRec] at slot [windowSize], one pass of the
    waiting loop of [clientSlidingWindow] does not complete: the read
    [buffer[(lastAckRec + 1) * max]] is at index [(windowSize + 1) * max],
    the size of the buffer. *)
Theorem clientSlidingWindow_wait_faults_at_last_slot (words : nat) (max w : Z)
    (o : obs) (st : WindowClient.client) :
  small_window w -> 0 < max -> (w + 1) * max <= Int.max_int ->
  WindowClient.at_pc st = WindowClient.AtWhile ->
  WindowClient.full w st = true ->
  WindowClient.lastAckRec st = w ->
  length (WindowClient.buffer st) = Z.to_nat ((w + 1) * max) ->
  exists f, WindowClient.client_step words max w o st = Fault f.
Proof.
  intros Hw Hmax Hsize Hpc Hfull Hlar Hlen.
  pose proof Hw as [Hpos Hwmax]. unfold Int.max_int in Hwmax, Hsize.
  unfold WindowClient.client_step. rewrite Hpc, Hfull.
  assert (Hidx : forall buf lar,
            length buf = length (WindowClient.buffer st) -> lar = w ->
            exists f, WindowClient.read buf (Int.mul (Int.add lar 1) max) = Fault f).
  { intros buf lar Hb ->. int_small.
    try rewrite Int_mul_small
      by (unfold Int.in_range, Int.min_int, Int.max_int; nia).
    unfold WindowClient.read, index.
    destruct (Z.leb_spec 0 ((w + 1) * max)); [| nia].
    rewrite lookup_ge_None_2 by (rewrite Hb, Hlen; lia).
    eexists. reflexivity. }
  unfold WindowClient.wait.
  destruct (MAX_TIME <? Timer.lap (WindowClient.timeout st) (now o)).
  - destruct (WindowClient.resend _ 1 max w st) as [st1 | f] eqn:Hres.
    + rewrite !result_bind_Ok. simpl.
      destruct (resend_counts _ _ _ _ _ _ Hres) as (vs & _ & _ & _ & Ha & _ & Hb).
      destruct (Hidx (WindowClient.buffer st1) (WindowClient.lastAckRec st1))
        as [f Hf]; [rewrite Hb; reflexivity | rewrite Ha; exact Hlar |].
      rewrite Hf. eexists. reflexivity.
    + eexists. reflexivity.
  - rewrite result_bind_Ok.
    destruct (Hidx (WindowClient.buffer st) (WindowClient.lastAckRec st))
      as [f Hf]; [reflexivity | exact Hlar |].
    rewrite Hf. eexists. reflexivity.
Qed.

Lemma clientSlidingWindow_wait_faults_at_last_slot_witness :
  exists f,
    WindowClient.client_step 2 3 1 {| now := 5; dgram := Some 2 |}
      WindowSession.full_at_last_slot = Fault f.
Proof.
  apply (clientSlidingWindow_wait_faults_at_last_slot 2 3 1
           {| now := 5; dgram := Some 2 |} WindowSession.full_at_last_slot
           small_window_one).
  - lia.
  - unfold Int.max_int. lia.
  - reflexivity.
  - reflexivity.
  - reflexivity.
  - reflexivity.
Defined.

(** ** The sliding window without loss *)

Lemma copy_ok msg base k : forall i buf,
  0 <= base -> 0 <= i ->
  (Z.to_nat i + k <= length msg)%nat ->
  base + i + Z.of_nat k <= Z.of_nat (length buf) ->
  base + i + Z.of_nat k <= Int.max_int ->
  exists buf',
    WindowClient.copy k i base msg buf = Ok buf' /\
    forall j, (j < Z.to_nat (base + i))%nat -> buf' !! j = buf !! j.
Proof.
  induction k as [| k IH]; intros i buf Hbase Hi Hmsg Hbuf Hint.
  - exists buf. split; [reflexivity | auto].
  - unfold Int.max_int in Hint. cbn [WindowClient.copy].
    destruct (lookup_lt_is_Some_2 msg (Z.to_nat i)) as [m Hm]; [lia |].
    assert (Hidx : index msg i = Ok m) by (apply index_Ok; split; [lia | exact Hm]).
    rewrite Hidx, result_bind_Ok.
    rewrite (Int_add_small base i) by int_range.
    assert (Hassign : assign buf (base + i) (Some m)
                      = Ok (<[Z.to_nat (base + i) := Some m]> buf)).
    { apply assign_Ok. split; [lia | reflexivity]. }
    rewrite Hassign, result_bind_Ok.
    rewrite (Int_add_small i 1) by int_range.
    destruct (IH (i + 1) (<[Z.to_nat (base + i) := Some m]> buf))
      as (buf' & Hcopy & Hsame); try lia.
    { rewrite length_insert. lia. }
    { unfold Int.max_int. lia. }
    exists buf'. split; [exact Hcopy |].
    intros j Hj. rewrite Hsame by lia. apply list_lookup_insert_ne. lia.
Qed.

Lemma copy_first (words : nat) msg base buf m0 :
  (0 < words)%nat ->
  0 <= base -> msg !! O = Some m0 ->
  (words <= length msg)%nat ->
  base + Z.of_nat words <= Z.of_nat (length buf) ->
  base + Z.of_nat words <= Int.max_int ->
  exists buf',
    WindowClient.copy words 0 base msg buf = Ok buf' /\
    length buf' = length buf /\
    buf' !! Z.to_nat base = Some (Some m0).
Proof.
  intros Hwords Hbase Hm0 Hmsg Hbuf Hint. unfold Int.max_int in Hint.
  destruct words as [| k]; [lia |].
  cbn [WindowClient.copy].
  assert (Hidx : index msg 0 = Ok m0) by (apply index_Ok; split; [lia | exact Hm0]).
  rewrite Hidx, result_bind_Ok.
  rewrite (Int_add_small base 0) by int_range. rewrite Z.add_0_r.
  assert (Hassign : assign buf base (Some m0)
                    = Ok (<[Z.to_nat base := Some m0]> buf)).
  { apply assign_Ok. split; [lia | reflexivity]. }
  rewrite Hassign, result_bind_Ok.
  rewrite (Int_add_small 0 1) by int_range.
  destruct (copy_ok msg base k (0 + 1) (<[Z.to_nat base := Some m0]> buf))
    as (buf' & Hcopy & Hsame); try lia.
  { rewrite length_insert. lia. }
  { unfold Int.max_int. lia. }
  exists buf'. split; [exact Hcopy |].
  split.
  - rewrite (copy_length _ _ _ _ _ _ Hcopy). apply length_insert.
  - rewrite Hsame by lia. apply list_lookup_insert_eq. lia.
Qed.

Section WindowLossless.

Import WindowClient.

Variable words : nat.
Variable max w : Z.
Hypothesis w_small : small_window w.
Hypothesis words_pos : (0 < words)%nat.
Hypothesis words_max : Z.of_nat words <= max.
Hypothesis size_int_range : (w + 1) * max <= Int.max_int.

Lemma ackAdvance_next k :
  0 <= k ->
  ackAdvance (Some ((k + 1) mod (2 * w + 1))) (k mod (2 * w + 1)) w = 1.
Proof.
  intros Hk. pose proof w_small as [Hpos _].
  set (m := 2 * w + 1).
  assert (Hl : 0 <= k mod m < m) by (apply Z.mod_pos_bound; lia).
  assert (Hr : 0 <= (k + 1) mod m < m) by (apply Z.mod_pos_bound; lia).
  destruct (ackAdvance_in_ring w (k mod m) ((k + 1) mod m) w_small Hl Hr) as [-> _].
  fold m.
  assert (H0 : ((k + 1) mod m - (k mod m + 1)) mod m = 0).
  { rewrite Zminus_mod_idemp_l.
    replace (k + 1 - (k mod m + 1)) with (k - k mod m) by lia.
    rewrite Zminus_mod_idemp_r. replace (k - k) with 0 by lia.
    apply Z.mod_0_l. lia. }
  rewrite H0.
  destruct (Z.ltb_spec 0 w); [| lia].
  rewrite Zminus_mod_idemp_l.
  replace (k + 1 - k mod m) with (1 + (k - k mod m)) by lia.
  rewrite <- Zplus_mod_idemp_r, Zminus_mod_idemp_r.
  replace (k - k) with 0 by lia. rewrite Z.mod_0_l by lia.
  apply Z.mod_small. lia.
Qed.

Lemma lossless_window_step k st :
  WindowSession.in_step words max w k st -> 0 <= k -> k < max ->
  exists st',
    client_run words max w
      [ {| now := 0; dgram := None |};
        {| now := 0; dgram := Some ((k + 1) mod (2 * w + 1)) |} ] st = Ok st' /\
    WindowSession.in_step words max w (k + 1) st' /\
    sent st' = Message (k mod (2 * w + 1)) :: sent st.
Proof.
  intros (Hn & Hret & Hf & Ha & Hlen & Hmsg & Hpc) Hk Hlt.
  pose proof w_small as [Hpos Hwmax]. unfold Int.max_int in Hwmax, size_int_range.
  destruct (Z.ltb_spec k max); [| lia].
  set (r := k mod (w + 1)) in *.
  assert (Hr : 0 <= r <= w) by (pose proof (Z.mod_pos_bound k (w + 1)); lia).
  set (lfs := (k + 1) mod (w + 1)).
  assert (Hlfs : 0 <= lfs <= w) by (pose proof (Z.mod_pos_bound (k + 1) (w + 1)); lia).
  assert (Hslot : Int.rem (Int.add r 1) (Int.add w 1) = lfs).
  { int_small. rewrite Int_rem_nonneg by lia. unfold r, lfs.
    apply Zplus_mod_idemp_l. }
  assert (Hne : r <> lfs).
  { unfold lfs. rewrite <- (Zplus_mod_idemp_l k 1). fold r.
    destruct (Z.eq_dec r w) as [-> | E].
    - replace (w + 1) with (1 * (w + 1)) at 1 by lia. rewrite Z_mod_mult. lia.
    - rewrite Z.mod_small by lia. lia. }
  assert (Hseq : Int.rem k (Int.add (Int.mul w 2) 1) = k mod (2 * w + 1)).
  { rewrite (seqRange_small w w_small). apply Int_rem_nonneg; lia. }
  set (seq := k mod (2 * w + 1)) in *.
  assert (Hbase : Int.mul lfs max = lfs * max)
    by (apply Int_mul_small; unfold Int.in_range, Int.min_int, Int.max_int; nia).
  destruct (lookup_lt_is_Some_2 (message st) O) as [old Hold]; [lia |].
  set (msg := <[O := seq]> (message st)).
  assert (Hm0 : msg !! O = Some seq) by (apply list_lookup_insert_eq; lia).
  destruct (copy_first words msg (lfs * max) (buffer st) seq)
    as (buf & Hcopy & Hblen & Hcell);
    try (exact Hm0); try (exact words_pos); try nia.
  { unfold msg. rewrite length_insert. exact Hmsg. }
  { unfold Int.max_int. nia. }
  set (sa := {| retrans := retrans st; lastAckRec := lastAckRec st;
                lastFrameSent := lastFrameSent st; timeout := Timer.start 0;
                buffer := buffer st; message := message st; msgNum := msgNum st;
                at_pc := AtWhile; sent := sent st |}).
  assert (H1 : client_step words max w {| now := 0; dgram := None |} st = Ok sa).
  { unfold client_step. rewrite Hpc. reflexivity. }
  assert (Hassign : assign (message st) 0 seq = Ok msg).
  { apply assign_Ok. split; [lia | reflexivity]. }
  assert (Hread : read buf (lfs * max) = Ok seq).
  { unfold read. assert (Hi : index buf (lfs * max) = Ok (Some seq))
      by (apply index_Ok; split; [nia | exact Hcell]).
    rewrite Hi. reflexivity. }
  assert (H2 : exists sb,
            client_step words max w
              {| now := 0; dgram := Some ((k + 1) mod (2 * w + 1)) |} sa = Ok sb /\
            WindowSession.in_step words max w (k + 1) sb /\
            sent sb = Message seq :: sent st).
  { unfold client_step. cbn [at_pc sa].
    unfold full. cbn [lastAckRec lastFrameSent sa].
    rewrite Hf, Ha, Hslot.
    destruct (Z.eqb_spec r lfs) as [E | _]; [contradiction |].
    unfold send.
    cbn [message msgNum lastFrameSent lastAckRec buffer retrans sent timeout dgram sa].
    rewrite Hn, Hseq, Hf, Ha, Hslot, Hbase.
    rewrite Hassign, result_bind_Ok, Hcopy, result_bind_Ok.
    rewrite Hread, result_bind_Ok.
    assert (Hadv : ackAdvance (Some ((k + 1) mod (2 * w + 1))) seq w = 1)
      by (unfold seq; apply ackAdvance_next, Hk).
    rewrite Hadv, Hslot.
    assert (Hmaxr : max <= 2147483647) by nia.
    rewrite (Int_add_small k 1) by int_range.
    eexists. split; [reflexivity |].
    unfold for_head, WindowSession.in_step.
    cbn [msgNum retrans lastFrameSent lastAckRec buffer message at_pc sent].
    repeat split; try reflexivity; try assumption.
    - rewrite Hblen. exact Hlen.
    - unfold msg. rewrite length_insert. exact Hmsg. }
  destruct H2 as (sb & H2 & Hin & Hsent).
  exists sb. split; [| split; assumption].
  cbn [client_run]. rewrite H1, result_bind_Ok, H2, result_bind_Ok. reflexivity.
Qed.

Lemma lossless_window_client n : forall k st,
  WindowSession.in_step words max w k st -> 0 <= k -> k + Z.of_nat n <= max ->
  exists st',
    client_run words max w (WindowSession.lossless (2 * w + 1) n k) st = Ok st' /\
    WindowSession.in_step words max w (k + Z.of_nat n) st' /\
    sent st' = map Message (rev (WindowServer.numbers (2 * w + 1) n k)) ++ sent st.
Proof.
  induction n as [| n IH]; intros k st Hst Hk Hle.
  - exists st. simpl. rewrite Z.add_0_r. auto.
  - destruct (lossless_window_step k st Hst Hk) as (st1 & Hrun1 & Hst1 & Hsent1);
      [lia |].
    destruct (IH (k + 1) st1 Hst1) as (st' & Hrun & Hst' & Hsent); [lia | lia |].
    exists st'. split.
    + cbn [WindowSession.lossless]. cbn [client_run] in Hrun1 |- *.
      destruct (client_step words max w {| now := 0; dgram := None |} st)
        as [sa | f]; [| discriminate].
      rewrite result_bind_Ok in Hrun1 |- *.
      destruct (client_step words max w _ sa) as [sb | f]; [| discriminate].
      rewrite result_bind_Ok in Hrun1 |- *. injection Hrun1 as ->. exact Hrun.
    + split; [replace (k + Z.of_nat (S n)) with (k + 1 + Z.of_nat n) by lia;
              exact Hst' |].
      rewrite Hsent, Hsent1. cbn [WindowServer.numbers rev].
      rewrite map_app, <- app_assoc. reflexivity.
Qed.

End WindowLossless.

Lemma messages_of_new l :
  WindowSession.messages_of (map WindowClient.Message l) = l.
Proof. induction l as [| x l IH]; simpl; [reflexivity | rewrite IH; reflexivity]. Qed.

Lemma lossless_acks m n : forall k,
  omap dgram (WindowSession.lossless m n k) = WindowServer.numbers m n (k + 1).
Proof.
  induction n as [| n IH]; intros k; [reflexivity |].
  simpl. f_equal. apply IH.
Qed.

(** The sliding window over a transport that loses and delays nothing.
    When every frame is answered at the poll that follows its [sendTo] by
    the acknowledgment [serverEarlyRetrans] sends for it,
    [clientSlidingWindow] never finds its window full: it sends the [max]
    frames numbered 0, 1, 2, ... modulo [2 * windowSize + 1] once each,
    retransmits nothing and returns 0; [serverEarlyRetrans], on those frames,
    counts [max] messages and sends exactly the acknowledgments the client
    read. *)
Theorem sliding_window_lossless (words : nat) (max : Z) (message : list Z) (w : Z) :
  small_window w ->
  (0 < words)%nat -> Z.of_nat words <= max ->
  (words <= length message)%nat ->
  (w + 1) * max <= Int.max_int ->
  let n := Z.to_nat max in
  let script := WindowSession.lossless (2 * w + 1) n 0 in
  exists c s,
    WindowClient.clientSlidingWindow words max message w script = Ok c /\
    WindowClient.at_pc c = WindowClient.AtReturn /\
    WindowClient.retrans c = 0 /\
    WindowClient.sent c
    = map WindowClient.Message (rev (WindowServer.numbers (2 * w + 1) n 0)) /\
    WindowServer.serverEarlyRetrans max w
      (rev (WindowSession.messages_of (WindowClient.sent c))) = Ok s /\
    WindowServer.msgToAck s = max /\
    rev (WindowServer.acks_of (WindowServer.log s)) = omap dgram script.
Proof.
  intros Hw Hwords Hwmax Hmsg Hsize n script.
  pose proof Hw as [Hpos Hwint]. unfold Int.max_int in Hwint, Hsize.
  assert (Hmax : Int.in_range max)
    by (unfold Int.in_range, Int.min_int, Int.max_int; nia).
  assert (Hinit : WindowSession.in_step words max w 0
                    (WindowClient.client_init max w message)).
  { unfold WindowSession.in_step, WindowClient.client_init, WindowClient.for_head.
    simpl. rewrite length_replicate.
    rewrite (Int_add_small w 1) by int_range.
    rewrite Int_mul_small by (unfold Int.in_range, Int.min_int, Int.max_int; nia).
    rewrite Z.mod_0_l by lia. repeat split; try reflexivity. exact Hmsg. }
  destruct (lossless_window_client words max w Hw Hwords Hwmax Hsize n 0 _ Hinit)
    as (c & Hrun & Hc & Hsent); [lia | lia |].
  destruct Hc as (Hn & Hret & _ & _ & _ & _ & Hpc).
  replace (0 + Z.of_nat n) with max in * by lia.
  rewrite Z.ltb_irrefl in Hpc. simpl in Hsent. rewrite app_nil_r in Hsent.
  destruct (in_order_run w Hw max n 0 (WindowServer.server_init w) Hmax
              (server_init_in_order w Hw))
    as (s & Hsrun & (_ & _ & _ & Hcnt & _) & Hacks); [lia | lia |].
  exists c, s.
  split; [exact Hrun |]. split; [exact Hpc |]. split; [exact Hret |].
  split; [exact Hsent |].
  split.
  { rewrite Hsent, messages_of_new, rev_involutive. exact Hsrun. }
  split; [rewrite Hcnt; lia |].
  rewrite Hacks. simpl. rewrite app_nil_r, rev_involutive.
  unfold script. symmetry. apply lossless_acks.
Qed.

Lemma sliding_window_lossless_witness :
  exists c s,
    WindowClient.clientSlidingWindow 2 6 [0; 7] 2
      (WindowSession.lossless (2 * 2 + 1) (Z.to_nat 6) 0) = Ok c /\
    WindowClient.at_pc c = WindowClient.AtReturn /\
    WindowClient.retrans c = 0 /\
    WindowClient.sent c
    = map WindowClient.Message
        (rev (WindowServer.numbers (2 * 2 + 1) (Z.to_nat 6) 0)) /\
    WindowServer.serverEarlyRetrans 6 2
      (rev (WindowSession.messages_of (WindowClient.sent c))) = Ok s /\
    WindowServer.msgToAck s = 6 /\
    rev (WindowServer.acks_of (WindowServer.log s))
    = omap dgram (WindowSession.lossless (2 * 2 + 1) (Z.to_nat 6) 0).
Proof.
  apply (sliding_window_lossless 2 6 [0; 7] 2 small_window_two).
  - lia.
  - lia.
  - simpl. lia.
  - unfold Int.max_int. lia.
Defined.

(** ** Frames and the other end *)

Lemma clientStopWait_fold_bits max script : forall st,
  Int.in_range max ->
  StopWait.client_inv max st ->
  Forall (fun b => b = 0 \/ b = 1) (StopWait.sent st) ->
  Forall (fun b => b = 0 \/ b = 1)
    (StopWait.sent (fold_left (fun st o => StopWait.client_step max o st) script st)).
Proof.
  induction script as [| o script IH]; intros st Hmax Hinv Hbits; simpl;
    [exact Hbits |].
  apply IH; [exact Hmax | apply client_step_inv; assumption |].
  destruct Hinv as [Hn Hrun].
  assert (Hbit : StopWait.at_pc st <> StopWait.AtReturn ->
                 StopWait.message0 st = 0 \/ StopWait.message0 st = 1).
  { intros Hpc. destruct (Hrun Hpc) as [_ ->].
    pose proof (Z.mod_pos_bound (StopWait.msgNum st) 2). lia. }
  unfold StopWait.client_step.
  destruct (StopWait.at_pc st) eqn:Hpc.
  - simpl. constructor; [apply Hbit; discriminate | exact Hbits].
  - destruct (dgram o) as [ack |].
    + destruct (negb (ack =? StopWait.message0 st)); [exact Hbits |].
      unfold StopWait.for_head. simpl.
      destruct (_ <? max); exact Hbits.
    + destruct (MAX_TIME <? _); [| exact Hbits].
      simpl. constructor; [apply Hbit; discriminate | exact Hbits].
  - exact Hbits.
Qed.

(** Every frame [clientStopWait] sends carries a bit, whatever it receives:
    the frames that reach [serverReliable] from it are frames on which the
    server's expected index never passes 2. *)
Theorem clientStopWait_sends_bits (max : Z) (script : list obs) :
  Int.in_range max ->
  Forall (fun b => b = 0 \/ b = 1)
    (StopWait.sent (StopWait.clientStopWait max script)) /\
  0 <= StopWait.msgToAck
         (StopWait.serverReliable max
            (rev (StopWait.sent (StopWait.clientStopWait max script)))) <= 2.
Proof.
  intros Hmax.
  assert (Hbits : Forall (fun b => b = 0 \/ b = 1)
                    (StopWait.sent (StopWait.clientStopWait max script))).
  { apply clientStopWait_fold_bits; [exact Hmax | apply for_head_inv; simpl; lia |].
    unfold StopWait.for_head. simpl. destruct (0 <? max); constructor. }
  split; [exact Hbits |].
  apply serverReliable_fold_bits; [| simpl; lia].
  apply List.Forall_forall. intros x Hx. apply List.in_rev in Hx.
  rewrite List.Forall_forall in Hbits. apply Hbits, Hx.
Qed.

Lemma clientStopWait_sends_bits_witness :
  Forall (fun b => b = 0 \/ b = 1)
    (StopWait.sent
       (StopWait.clientStopWait 3
          [ {| now := 0; dgram := None |}; {| now := 1; dgram := Some 7 |} ])) /\
  0 <= StopWait.msgToAck
         (StopWait.serverReliable 3
            (rev (StopWait.sent
                    (StopWait.clientStopWait 3
                       [ {| now := 0; dgram := None |};
                         {| now := 1; dgram := Some 7 |} ])))) <= 2.
Proof.
  apply (clientStopWait_sends_bits 3
           [ {| now := 0; dgram := None |}; {| now := 1; dgram := Some 7 |} ]).
  exact int_range_three.
Defined.

Lemma server_run_total w max frames : forall st,
  small_window w ->
  WindowServer.server_inv w st -> WindowServer.quiescent w st ->
  Forall (fun f => 0 <= f < 2 * w + 1) frames ->
  exists st', WindowServer.server_run max w frames st = Ok st'.
Proof.
  induction frames as [| seq frames IH]; intros st Hw Hinv Hq Hring; simpl.
  - eexists. reflexivity.
  - inversion Hring as [| ? ? Hseq Hrest]; subst.
    destruct (WindowServer.msgToAck st <? max); [| eexists; reflexivity].
    destruct (server_recv_ok w Hw seq st Hinv Hq (fun _ => Hseq))
      as (st1 & mid & Hrecv & Hinv1 & Hq1 & _).
    rewrite Hrecv, result_bind_Ok. apply (IH st1 Hw Hinv1 Hq1 Hrest).
Qed.

(** On frames whose sequence numbers are positions of the ring (as those of
    [clientSlidingWindow] are) [serverEarlyRetrans] never leaves its
    occupancy map and its inner loop always ends: every such list of frames,
    in any order and with any repetitions, is processed to the end. *)
Theorem serverEarlyRetrans_safe_on_ring_frames (max w : Z) (frames : list Z) :
  small_window w ->
  Forall (fun f => 0 <= f < 2 * w + 1) frames ->
  exists st, WindowServer.serverEarlyRetrans max w frames = Ok st.
Proof.
  intros Hw Hring. destruct (server_init_inv w Hw) as [Hinv Hq].
  apply (server_run_total w max frames _ Hw Hinv Hq Hring).
Qed.

Lemma serverEarlyRetrans_safe_on_ring_frames_witness :
  exists st, WindowServer.serverEarlyRetrans 9 2 [3; 3; 0; 4; 1; 0; 2] = Ok st.
Proof.
  apply (serverEarlyRetrans_safe_on_ring_frames 9 2 [3; 3; 0; 4; 1; 0; 2]
           small_window_two).
  repeat (constructor; [lia |]). constructor.
Defined.

Lemma server_run_nothing max w frames : forall st,
  WindowServer.msgToAck st = 0 -> max <= 0 ->
  WindowServer.server_run max w frames st = Ok st.
Proof.
  induction frames as [| seq frames IH]; intros st Hst Hmax; simpl;
    [reflexivity |].
  destruct (Z.ltb_spec (WindowServer.msgToAck st) max); [lia | reflexivity].
Qed.

(** With nothing to receive ([max <= 0]) both servers return at once: no
    frame is read and no acknowledgment is sent, whatever arrives. *)
Theorem servers_nothing_to_receive (max w : Z) (frames : list Z) :
  max <= 0 ->
  StopWait.serverReliable max frames = StopWait.server_init /\
  WindowServer.serverEarlyRetrans max w frames = Ok (WindowServer.server_init w).
Proof.
  intros Hmax. split.
  - unfold StopWait.serverReliable.
    assert (H : forall st, StopWait.msgToAck st = 0 ->
              fold_left
                (fun st frame =>
                   if StopWait.msgToAck st <? max
                   then StopWait.server_recv frame st else st) frames st = st).
    { induction frames as [| f frames IH]; intros st Hst; simpl; [reflexivity |].
      destruct (Z.ltb_spec (StopWait.msgToAck st) max); [lia |].
      apply IH, Hst. }
    apply H. reflexivity.
  - apply server_run_nothing; [reflexivity | exact Hmax].
Qed.

Lemma servers_nothing_to_receive_witness :
  StopWait.serverReliable 0 [0; 1] = StopWait.server_init /\
  WindowServer.serverEarlyRetrans 0 2 [0; 1] = Ok (WindowServer.server_init 2).
Proof. apply (servers_nothing_to_receive 0 2 [0; 1]). lia. Defined.

(** The window of [clientSlidingWindow] while both cursors are positions of
    the ring of slots: the count of outstanding frames is between 0 and
    [windowSize], and the [while] condition holds exactly when it is
    [windowSize]. *)
Theorem clientSlidingWindow_full_iff_window_used (w : Z) (st : WindowClient.client) :
  small_window w ->
  0 <= WindowClient.lastAckRec st <= w ->
  0 <= WindowClient.lastFrameSent st <= w ->
  0 <= WindowClient.outstanding w st <= w /\
  (WindowClient.full w st = true <-> WindowClient.outstanding w st = w) /\
  (WindowClient.full w st = false -> WindowClient.outstanding w st < w).
Proof.
  intros Hw Ha Hf.
  destruct (window_full_iff_count w st Hw Ha Hf) as [Hrange Hiff].
  split; [exact Hrange |]. split; [exact Hiff |].
  intros Hfull.
  destruct (Z.eq_dec (WindowClient.outstanding w st) w) as [E | E]; [| lia].
  apply Hiff in E. congruence.
Qed.

Lemma clientSlidingWindow_full_iff_window_used_witness :
  0 <= WindowClient.outstanding 1 WindowSession.full_at_last_slot <= 1 /\
  (WindowClient.full 1 WindowSession.full_at_last_slot = true
   <-> WindowClient.outstanding 1 WindowSession.full_at_last_slot = 1) /\
  (WindowClient.full 1 WindowSession.full_at_last_slot = false ->
   WindowClient.outstanding 1 WindowSession.full_at_last_slot < 1).
Proof.
  apply (clientSlidingWindow_full_iff_window_used 1 WindowSession.full_at_last_slot
           small_window_one).
  - simpl. lia.
  - simpl. lia.
Defined.
